(** * MiniProject: pattern validators, record and metadata stores,
      contact manager

    A shallow embedding of [MiniProject.py].  Python [str] values are
    modelled as [string], read as sequences of code points below 256;
    the library calls the program makes ([re.match], [re.findall],
    [csv.reader], [csv.writer], [json.load], [json.dump]) are modelled
    by executable definitions that follow CPython's behaviour on that
    range. *)

From Stdlib Require Import List String Ascii Bool Arith NArith ZArith Lia.
From Stdlib Require Import DecimalFacts DecimalPos DecimalZ.
From stdpp Require Import gmap strings.

Set Warnings "-register-all".
Import ListNotations.

Local Open Scope list_scope.

(** ** Characters *)

Definition code (c : ascii) : nat := nat_of_ascii c.

Definition LF : ascii := ascii_of_nat 10.
Definition CR : ascii := ascii_of_nat 13.
Definition TAB : ascii := ascii_of_nat 9.

(** ** Exceptions and results *)

Inductive exn :=
| ValueError (msg : string)
| TypeError (msg : string)
| CsvError (msg : string)
| JSONDecodeError (msg : string)
| OutsideModel (what : string).

Inductive result (A : Type) :=
| Ok (a : A)
| Raise (e : exn).
Arguments Ok {A} a.
Arguments Raise {A} e.

Definition bind {A B} (r : result A) (k : A -> result B) : result B :=
  match r with
  | Ok a => k a
  | Raise e => Raise e
  end.

Notation "x <- r ;; k" := (bind r (fun x => k))
  (at level 60, r at next level, right associativity).
Notation "'let*' pat ':=' r 'in' k" := (bind r (fun pat => k))
  (at level 10, pat pattern, r at level 100, k at level 200).

Definition chars_of (s : string) : list ascii := list_ascii_of_string s.

(** ** The [re] module: parsed patterns and the backtracking matcher *)

Module Re.

(** The subject is scanned left to right; a matcher state is the part
    of the subject that is still to be read. *)
Abbreviation subject := (list ascii).

Inductive category := CATEGORY_DIGIT | CATEGORY_SPACE.

Inductive set_item :=
| SetLiteral (c : ascii)
| SetRange (lo hi : ascii)
| SetCategory (k : category).

Inductive at_code := AT_BEGINNING | AT_END.

(** The parse tree of a pattern, with the constructors of [sre_parse]. *)
Inductive regex :=
| LITERAL (c : ascii)
| IN (items : list set_item)
| AT (a : at_code)
| SEQ (r1 r2 : regex)
| BRANCH (r1 r2 : regex)
| MAX_REPEAT (min : nat) (max : option nat) (r : regex)
| SUBPATTERN (r : regex).

(** [\d] and [\s] on code points below 256: the decimal digits are
    0-9; the white space characters are 9-13, 28-31, 32, 133, 160. *)
Definition in_category (k : category) (c : ascii) : bool :=
  let n := code c in
  match k with
  | CATEGORY_DIGIT => (48 <=? n) && (n <=? 57)
  | CATEGORY_SPACE =>
      ((9 <=? n) && (n <=? 13)) || ((28 <=? n) && (n <=? 32))
      || (n =? 133) || (n =? 160)
  end.

Definition item_matches (i : set_item) (c : ascii) : bool :=
  match i with
  | SetLiteral x => Ascii.eqb c x
  | SetRange lo hi => (code lo <=? code c) && (code c <=? code hi)
  | SetCategory k => in_category k c
  end.

Definition in_set (items : list set_item) (c : ascii) : bool :=
  existsb (fun i => item_matches i c) items.

(** Greedy repetition.  The outcomes are listed in the order in which
    the backtracking engine tries them: one more iteration first, then
    stopping here (allowed once [min] iterations are done).  An
    iteration past [min] that consumes nothing is not repeated. *)
Fixpoint max_repeat (body : subject -> list subject)
    (fuel min : nat) (max : option nat) (s : subject) : list subject :=
  let stop := match min with 0 => [s] | S _ => [] end in
  match fuel with
  | 0 => stop
  | S fuel' =>
      match max with
      | Some 0 => stop
      | _ =>
          flat_map
            (fun s' =>
               if (0 <? min) || (length s' <? length s)
               then max_repeat body fuel' (pred min) (option_map pred max) s'
               else [])
            (body s) ++ stop
      end
  end.

Definition repeat_fuel (min : nat) (max : option nat) (s : subject) : nat :=
  match max with
  | Some n => n
  | None => min + length s
  end.

(** [exec n r s]: every way [r] can match at state [s], as the list of
    the states after the match, in the engine's order of preference.
    [n] is the length of the whole subject ([^] holds where nothing has
    been read; [$] holds at the end and before a final line feed). *)
Fixpoint exec (n : nat) (r : regex) (s : subject) : list subject :=
  match r with
  | LITERAL c =>
      match s with
      | x :: s' => if Ascii.eqb x c then [s'] else []
      | [] => []
      end
  | IN items =>
      match s with
      | x :: s' => if in_set items x then [s'] else []
      | [] => []
      end
  | AT AT_BEGINNING => if length s =? n then [s] else []
  | AT AT_END =>
      match s with
      | [] => [s]
      | [x] => if Ascii.eqb x LF then [s] else []
      | _ => []
      end
  | SEQ r1 r2 => flat_map (exec n r2) (exec n r1 s)
  | BRANCH r1 r2 => exec n r1 s ++ exec n r2 s
  | MAX_REPEAT min max r' =>
      max_repeat (exec n r') (repeat_fuel min max s) min max s
  | SUBPATTERN r' => exec n r' s
  end.

(** [re.match]: the first outcome at the start of the subject. *)
Definition re_match (r : regex) (s : subject) : option subject :=
  head (exec (length s) r s).

(** The engine's search: try the pattern at [s], then one character
    further, and so on.  With [must_advance] an empty match at the
    first position is rejected.  The result is the state where the
    match starts and the state where it ends. *)
Fixpoint search (n : nat) (r : regex) (must_advance : bool) (s : subject)
    : option (subject * subject) :=
  let outcomes := exec n r s in
  let accepted :=
    if must_advance
    then List.filter (fun s' => length s' <? length s) outcomes
    else outcomes in
  match accepted with
  | s' :: _ => Some (s, s')
  | [] =>
      match s with
      | [] => None
      | _ :: t => search n r false t
      end
  end.

(** [re.findall] for a pattern without groups: the matched substrings,
    left to right, each search resuming where the last match ended. *)
Fixpoint findall_loop (fuel n : nat) (r : regex) (must_advance : bool)
    (s : subject) : list subject :=
  match fuel with
  | 0 => []
  | S fuel' =>
      match search n r must_advance s with
      | None => []
      | Some (start, rest) =>
          firstn (length start - length rest) start
            :: findall_loop fuel' n r (length rest =? length start) rest
      end
  end.

Definition findall (r : regex) (s : subject) : list subject :=
  findall_loop (2 * length s + 2) (length s) r false s.

End Re.

(** ** 1. MyLibrary *)

Module MyLibrary.
Import Re.

Definition letters_digits : list set_item :=
  [SetRange "a" "z"; SetRange "A" "Z"; SetRange "0" "9"].

Definition digit : regex := IN [SetCategory CATEGORY_DIGIT].
Definition space : regex := IN [SetCategory CATEGORY_SPACE].
Definition times (n : nat) (r : regex) : regex := MAX_REPEAT n (Some n) r.
Definition optional (r : regex) : regex := MAX_REPEAT 0 (Some 1) r.
Definition plus (r : regex) : regex := MAX_REPEAT 1 None r.

(** [[a-zA-Z0-9_.+-]+@[a-zA-Z0-9-]+\.[a-zA-Z0-9-.]+] *)
Definition local_set : list set_item :=
  letters_digits
    ++ [SetLiteral "_"; SetLiteral "."; SetLiteral "+"; SetLiteral "-"].
Definition domain_set : list set_item := letters_digits ++ [SetLiteral "-"].
Definition tail_set : list set_item :=
  letters_digits ++ [SetLiteral "-"; SetLiteral "."].

Definition email_pattern : regex :=
  SEQ (plus (IN local_set))
    (SEQ (LITERAL "@")
       (SEQ (plus (IN domain_set))
          (SEQ (LITERAL ".") (plus (IN tail_set))))).

(** [^((\(\d{3}\)\s?)|(\d{3}-))?\d{3}-\d{4}$] *)
Definition phone_pattern : regex :=
  SEQ (AT AT_BEGINNING)
    (SEQ
       (optional
          (SUBPATTERN
             (BRANCH
                (SUBPATTERN
                   (SEQ (LITERAL "(")
                      (SEQ (times 3 digit)
                         (SEQ (LITERAL ")") (optional space)))))
                (SUBPATTERN (SEQ (times 3 digit) (LITERAL "-"))))))
       (SEQ (times 3 digit)
          (SEQ (LITERAL "-") (SEQ (times 4 digit) (AT AT_END))))).

Definition extract_emails (text : string) : list string :=
  map string_of_list_ascii (findall email_pattern (list_ascii_of_string text)).

Definition validate_phone_number (phone_number : string) : bool :=
  match re_match phone_pattern (list_ascii_of_string phone_number) with
  | Some _ => true
  | None => false
  end.

End MyLibrary.

(** ** The [csv] module, excel dialect

    [csv.writer] and [csv.reader] with their defaults: delimiter [,],
    the double quote as quote character, doubled inside a quoted field,
    line terminator CR LF, minimal
    quoting, no escape character, not strict. *)

Module Csv.

Definition field_limit : nat := N.to_nat 131072.

Definition comma : ascii := ","%char.
Definition quote : ascii := ascii_of_nat 34.

Definition is_newline (c : ascii) : bool := Ascii.eqb c LF || Ascii.eqb c CR.

(** *** Writer *)

(** A character that forces the field to be quoted. *)
Definition special (c : ascii) : bool :=
  Ascii.eqb c comma || Ascii.eqb c quote || is_newline c.

Definition needs_quotes (f : list ascii) : bool := existsb special f.

Definition double_quotes (f : list ascii) : list ascii :=
  flat_map (fun c => if Ascii.eqb c quote then [quote; quote] else [c]) f.

Definition join_append_data (f : list ascii) : list ascii :=
  if needs_quotes f then quote :: double_quotes f ++ [quote] else f.

Fixpoint join_fields (row : list (list ascii)) : list ascii :=
  match row with
  | [] => []
  | [f] => join_append_data f
  | f :: rest => join_append_data f ++ comma :: join_fields rest
  end.

(** A record of one empty field is written as two quotes. *)
Definition writerow (row : list (list ascii)) : list ascii :=
  let rec := join_fields row in
  (if (0 <? length row) && (length rec =? 0) then [quote; quote] else rec)
    ++ [CR; LF].

Definition writerows (rows : list (list (list ascii))) : list ascii :=
  flat_map writerow rows.

(** *** The lines of a file opened with [newline=''] *)

(** A line ends after LF, after CR LF, or after a CR that no LF
    follows; the line keeps its ending. *)
Fixpoint lines_from (cur s : list ascii) : list (list ascii) :=
  match s with
  | [] => match cur with [] => [] | _ => [cur] end
  | c :: r =>
      if Ascii.eqb c LF then (cur ++ [LF]) :: lines_from [] r
      else if Ascii.eqb c CR then
        match r with
        | c2 :: r' =>
            if Ascii.eqb c2 LF then (cur ++ [CR; LF]) :: lines_from [] r'
            else (cur ++ [CR]) :: lines_from [] r
        | [] => (cur ++ [CR]) :: lines_from [] r
        end
      else lines_from (cur ++ [c]) r
  end.

Definition lines (s : list ascii) : list (list ascii) := lines_from [] s.

(** *** Reader *)

Inductive pstate :=
| START_RECORD | START_FIELD | IN_FIELD | IN_QUOTED_FIELD
| QUOTE_IN_QUOTED_FIELD | EAT_CRNL.

Record parser := {
  state : pstate;
  fields : list (list ascii);
  field : list ascii
}.

Definition parse_reset : parser :=
  {| state := START_RECORD; fields := []; field := [] |}.

Definition set_state (s : pstate) (p : parser) : parser :=
  {| state := s; fields := fields p; field := field p |}.

Definition parse_save_field (p : parser) : parser :=
  {| state := state p; fields := fields p ++ [field p]; field := [] |}.

Definition parse_add_char (p : parser) (c : ascii) : result parser :=
  if field_limit <=? length (field p)
  then Raise (CsvError "field larger than field limit (131072)")
  else Ok {| state := state p; fields := fields p; field := field p ++ [c] |}.

(** The parser at the start of a field; [None] is the end of a line. *)
Definition start_field (p : parser) (c : option ascii) : result parser :=
  match c with
  | None => Ok (set_state START_RECORD (parse_save_field p))
  | Some x =>
      if is_newline x then Ok (set_state EAT_CRNL (parse_save_field p))
      else if Ascii.eqb x quote then Ok (set_state IN_QUOTED_FIELD p)
      else if Ascii.eqb x comma then Ok (parse_save_field p)
      else p' <- parse_add_char p x ;; Ok (set_state IN_FIELD p')
  end.

Definition parse_process_char (p : parser) (c : option ascii)
    : result parser :=
  match state p with
  | START_RECORD =>
      match c with
      | None => Ok p
      | Some x =>
          if is_newline x then Ok (set_state EAT_CRNL p)
          else start_field (set_state START_FIELD p) c
      end
  | START_FIELD => start_field p c
  | IN_FIELD =>
      match c with
      | None => Ok (set_state START_RECORD (parse_save_field p))
      | Some x =>
          if is_newline x then Ok (set_state EAT_CRNL (parse_save_field p))
          else if Ascii.eqb x comma
          then Ok (set_state START_FIELD (parse_save_field p))
          else parse_add_char p x
      end
  | IN_QUOTED_FIELD =>
      match c with
      | None => Ok p
      | Some x =>
          if Ascii.eqb x quote then Ok (set_state QUOTE_IN_QUOTED_FIELD p)
          else parse_add_char p x
      end
  | QUOTE_IN_QUOTED_FIELD =>
      match c with
      | None => Ok (set_state START_RECORD (parse_save_field p))
      | Some x =>
          if Ascii.eqb x quote
          then p' <- parse_add_char p x ;; Ok (set_state IN_QUOTED_FIELD p')
          else if Ascii.eqb x comma
          then Ok (set_state START_FIELD (parse_save_field p))
          else if is_newline x
          then Ok (set_state EAT_CRNL (parse_save_field p))
          else p' <- parse_add_char p x ;; Ok (set_state IN_FIELD p')
      end
  | EAT_CRNL =>
      match c with
      | None => Ok (set_state START_RECORD p)
      | Some x =>
          if is_newline x then Ok p
          else Raise (CsvError "new-line character seen in unquoted field")
      end
  end.

Fixpoint feed (p : parser) (line : list ascii) : result parser :=
  match line with
  | [] => Ok p
  | c :: rest => p' <- parse_process_char p (Some c) ;; feed p' rest
  end.

(** The reader's iteration over the lines of the file.  A record ends
    when the parser is back at [START_RECORD] after a line; input that
    stops inside a record yields what was read. *)
Fixpoint reader_loop (p : parser) (file : list (list ascii))
    : result (list (list (list ascii))) :=
  match file with
  | [] =>
      if negb (length (field p) =? 0)
         || match state p with IN_QUOTED_FIELD => true | _ => false end
      then Ok [fields (parse_save_field p)]
      else Ok []
  | line :: rest =>
      p1 <- feed p line ;;
      p2 <- parse_process_char p1 None ;;
      match state p2 with
      | START_RECORD =>
          rows <- reader_loop parse_reset rest ;; Ok (fields p2 :: rows)
      | _ => reader_loop p2 rest
      end
  end.

Definition reader (file : list (list ascii))
    : result (list (list (list ascii))) :=
  reader_loop parse_reset file.

End Csv.

(** ** The [json] module

    [json.dump] with [indent=4] and [json.load], on JSON values without
    floating point numbers.  A float in a document, a [\u] escape for a
    code point above 255, and containers nested deeper than
    [nesting_limit] are outside the model: CPython stops at its recursion
    limit of 1000 frames less those of the caller, and the model decides
    nothing beyond 500 levels. *)

Module Json.

Inductive json :=
| JNull
| JBool (b : bool)
| JInt (z : Z)
| JString (s : string)
| JArray (items : list json)
| JObject (pairs : list (string * json)).

(** *** Python dictionaries with text keys, in insertion order *)

Abbreviation dict := (list (string * json)).


(** [d[k] = v]: an existing key keeps its place, a new key goes last. *)
Fixpoint dict_set (d : dict) (k : string) (v : json) : dict :=
  match d with
  | [] => [(k, v)]
  | (k', v') :: rest =>
      if String.eqb k' k then (k', v) :: rest
      else (k', v') :: dict_set rest k v
  end.

Definition dict_of_pairs (pairs : list (string * json)) : dict :=
  fold_left (fun d kv => dict_set d (fst kv) (snd kv)) pairs [].

(** A value as Python can hold it: no mapping has the same key twice. *)
Inductive wf : json -> Prop :=
| wf_null : wf JNull
| wf_bool b : wf (JBool b)
| wf_int z : wf (JInt z)
| wf_string s : wf (JString s)
| wf_array items : Forall wf items -> wf (JArray items)
| wf_object pairs :
    List.NoDup (map fst pairs) -> Forall (fun kv => wf (snd kv)) pairs ->
    wf (JObject pairs).

(** How deep the containers of a value are nested: a scalar is at 0, a
    container, also an empty one, one above what it holds. *)
Fixpoint depth (v : json) : nat :=
  match v with
  | JArray items => S (List.list_max (map depth items))
  | JObject pairs =>
      S (List.list_max (map (fun kv => depth (snd kv)) pairs))
  | _ => 0
  end.

Definition nesting_limit : nat := 500.

Definition too_deep {A} : result A :=
  Raise (OutsideModel "containers nested deeper than 500 levels").

(** The limit of CPython 3.11 on the decimal digits of an integer that
    is printed or parsed. *)
Definition max_str_digits : nat := 4300.

(** *** Encoder *)

Definition quote : ascii := ascii_of_nat 34.
Definition backslash : ascii := ascii_of_nat 92.
Definition BS : ascii := ascii_of_nat 8.
Definition FF : ascii := ascii_of_nat 12.

Definition hex_digit (n : nat) : ascii :=
  if n <? 10 then ascii_of_nat (48 + n) else ascii_of_nat (87 + n).

(** [ensure_ascii]: everything but the printable ASCII characters is
    escaped. *)
Definition escape_char (c : ascii) : list ascii :=
  if Ascii.eqb c quote then [backslash; quote]
  else if Ascii.eqb c backslash then [backslash; backslash]
  else if Ascii.eqb c LF then [backslash; "n"%char]
  else if Ascii.eqb c CR then [backslash; "r"%char]
  else if Ascii.eqb c TAB then [backslash; "t"%char]
  else if Ascii.eqb c BS then [backslash; "b"%char]
  else if Ascii.eqb c FF then [backslash; "f"%char]
  else if (32 <=? code c) && (code c <=? 126) then [c]
  else [backslash; "u"%char; "0"%char; "0"%char;
        hex_digit (code c / 16); hex_digit (code c mod 16)].

Definition encode_string (s : list ascii) : list ascii :=
  quote :: flat_map escape_char s ++ [quote].

Fixpoint uint_chars (u : Decimal.uint) : list ascii :=
  match u with
  | Decimal.Nil => []
  | Decimal.D0 u => "0"%char :: uint_chars u
  | Decimal.D1 u => "1"%char :: uint_chars u
  | Decimal.D2 u => "2"%char :: uint_chars u
  | Decimal.D3 u => "3"%char :: uint_chars u
  | Decimal.D4 u => "4"%char :: uint_chars u
  | Decimal.D5 u => "5"%char :: uint_chars u
  | Decimal.D6 u => "6"%char :: uint_chars u
  | Decimal.D7 u => "7"%char :: uint_chars u
  | Decimal.D8 u => "8"%char :: uint_chars u
  | Decimal.D9 u => "9"%char :: uint_chars u
  end.

Definition encode_int (z : Z) : list ascii :=
  match Z.to_int z with
  | Decimal.Pos u => uint_chars u
  | Decimal.Neg u => "-"%char :: uint_chars u
  end.

(** The number of decimal digits of an integer, without its sign. *)
Definition int_digits (z : Z) : nat :=
  match Z.to_int z with
  | Decimal.Pos u | Decimal.Neg u => Decimal.nb_digits u
  end.

(** [int.__repr__]: an integer of more than [max_str_digits] digits is
    not printed. *)
Definition too_long_to_print : exn :=
  ValueError
    "Exceeds the limit (4300 digits) for integer string conversion; use sys.set_int_max_str_digits() to increase the limit".

Definition int_str (z : Z) : result (list ascii) :=
  if max_str_digits <? int_digits z then Raise too_long_to_print
  else Ok (encode_int z).

Definition newline_indent (level : nat) : list ascii :=
  LF :: repeat " "%char (4 * level).

(** The items of a container at [level], one per line. *)
Definition item_separator (level : nat) : list ascii :=
  ","%char :: newline_indent level.





(** [json.dump] writes the text chunk by chunk and stops at the first
    integer that cannot be printed: what was written until then stays in
    the file.  A chunk stream is the text written and the error that
    ended it, if any. *)
Definition andthen (a b : list ascii * option exn)
    : list ascii * option exn :=
  match a with
  | (t, Some e) => (t, Some e)
  | (t, None) => let (t', e') := b in (t ++ t', e')
  end.

(** In a list the bracket or the separator is written in one chunk
    with a scalar item, and in a chunk of its own before a container; in
    a mapping every key and every value is a chunk of its own. *)
Fixpoint iterencode (level : nat) (v : json) {struct v}
    : list ascii * option exn :=
  match v with
  | JNull => (chars_of "null", None)
  | JBool true => (chars_of "true", None)
  | JBool false => (chars_of "false", None)
  | JInt z =>
      match int_str z with
      | Ok t => (t, None)
      | Raise e => ([], Some e)
      end
  | JString s => (encode_string (chars_of s), None)
  | JArray [] => (chars_of "[]", None)
  | JArray items =>
      (fix each (buf : list ascii) (l : list json)
           : list ascii * option exn :=
         match l with
         | [] => (newline_indent level ++ ["]"%char], None)
         | x :: rest =>
             andthen
               match x with
               | JArray _ | JObject _ =>
                   andthen (buf, None) (iterencode (S level) x)
               | _ =>
                   match iterencode (S level) x with
                   | (t, None) => (buf ++ t, None)
                   | (_, Some e) => ([], Some e)
                   end
               end
               (each (item_separator (S level)) rest)
         end) ("["%char :: newline_indent (S level)) items
  | JObject [] => (chars_of "{}", None)
  | JObject pairs =>
      andthen ("{"%char :: newline_indent (S level), None)
        ((fix each (first : bool) (l : list (string * json))
              : list ascii * option exn :=
            match l with
            | [] => (newline_indent level ++ ["}"%char], None)
            | (k, x) :: rest =>
                andthen
                  ((if first then [] else item_separator (S level))
                     ++ encode_string (chars_of k) ++ chars_of ": ", None)
                  (andthen (iterencode (S level) x) (each false rest))
            end) true pairs)
  end.

(** The two inner loops of [iterencode], by name. *)
Definition iterencode_items (level : nat)
    : list ascii -> list json -> list ascii * option exn :=
  fix each (buf : list ascii) (l : list json) : list ascii * option exn :=
    match l with
    | [] => (newline_indent level ++ ["]"%char], None)
    | x :: rest =>
        andthen
          match x with
          | JArray _ | JObject _ =>
              andthen (buf, None) (iterencode (S level) x)
          | _ =>
              match iterencode (S level) x with
              | (t, None) => (buf ++ t, None)
              | (_, Some e) => ([], Some e)
              end
          end
          (each (item_separator (S level)) rest)
    end.

Definition iterencode_pairs (level : nat)
    : bool -> list (string * json) -> list ascii * option exn :=
  fix each (first : bool) (l : list (string * json))
      : list ascii * option exn :=
    match l with
    | [] => (newline_indent level ++ ["}"%char], None)
    | (k, x) :: rest =>
        andthen
          ((if first then [] else item_separator (S level))
             ++ encode_string (chars_of k) ++ chars_of ": ", None)
          (andthen (iterencode (S level) x) (each false rest))
    end.

(** What [json.dump(v, file, indent=4)] writes and how it ends.  Beyond
    [nesting_limit] the interpreter's recursion limit may stop it, and
    the model does not say where. *)
Definition dump (v : json) : list ascii * option exn :=
  if nesting_limit <? depth v
  then (fst (iterencode 0 v),
        Some (OutsideModel "containers nested deeper than 500 levels"))
  else iterencode 0 v.



(** *** Decoder *)

Definition is_whitespace (c : ascii) : bool :=
  Ascii.eqb c " " || Ascii.eqb c TAB || Ascii.eqb c LF || Ascii.eqb c CR.

Definition parse_pairs_error {A} : result A :=
  Raise (JSONDecodeError
           "Expecting property name enclosed in double quotes").

Fixpoint skip_whitespace (s : list ascii) : list ascii :=
  match s with
  | c :: r => if is_whitespace c then skip_whitespace r else s
  | [] => []
  end.

Definition hex_value (c : ascii) : option nat :=
  let n := code c in
  if (48 <=? n) && (n <=? 57) then Some (n - 48)
  else if (97 <=? n) && (n <=? 102) then Some (n - 87)
  else if (65 <=? n) && (n <=? 70) then Some (n - 55)
  else None.

Definition hex4 (a b c d : ascii) : option nat :=
  match hex_value a, hex_value b, hex_value c, hex_value d with
  | Some x, Some y, Some z, Some t => Some (((x * 16 + y) * 16 + z) * 16 + t)
  | _, _, _, _ => None
  end.

Definition unescape (c : ascii) : option ascii :=
  if Ascii.eqb c quote then Some quote
  else if Ascii.eqb c backslash then Some backslash
  else if Ascii.eqb c "/" then Some "/"%char
  else if Ascii.eqb c "b" then Some BS
  else if Ascii.eqb c "f" then Some FF
  else if Ascii.eqb c "n" then Some LF
  else if Ascii.eqb c "r" then Some CR
  else if Ascii.eqb c "t" then Some TAB
  else None.

(** The string that starts after an opening quote, and what follows
    its closing quote. *)
Fixpoint scanstring (s : list ascii) : result (list ascii * list ascii) :=
  match s with
  | [] => Raise (JSONDecodeError "Unterminated string starting at")
  | c :: r =>
      if Ascii.eqb c quote then Ok ([], r)
      else if Ascii.eqb c backslash then
        match r with
        | [] => Raise (JSONDecodeError "Unterminated string starting at")
        | e :: r1 =>
            if Ascii.eqb e "u" then
              match r1 with
              | h1 :: h2 :: h3 :: h4 :: r2 =>
                  match hex4 h1 h2 h3 h4 with
                  | None => Raise (JSONDecodeError "Invalid \uXXXX escape")
                  | Some n =>
                      if n <? 256
                      then let* (str, rest) := scanstring r2 in
                           Ok (ascii_of_nat n :: str, rest)
                      else Raise (OutsideModel "code point above 255")
                  end
              | _ => Raise (JSONDecodeError "Invalid \uXXXX escape")
              end
            else
              match unescape e with
              | Some x =>
                  let* (str, rest) := scanstring r1 in Ok (x :: str, rest)
              | None => Raise (JSONDecodeError "Invalid \escape")
              end
        end
      else if code c <=? 31
      then Raise (JSONDecodeError "Invalid control character at")
      else let* (str, rest) := scanstring r in Ok (c :: str, rest)
  end.

Definition digit_value (c : ascii) : option (Decimal.uint -> Decimal.uint) :=
  match code c - 48, (48 <=? code c) with
  | 0, true => Some Decimal.D0
  | 1, _ => Some Decimal.D1
  | 2, _ => Some Decimal.D2
  | 3, _ => Some Decimal.D3
  | 4, _ => Some Decimal.D4
  | 5, _ => Some Decimal.D5
  | 6, _ => Some Decimal.D6
  | 7, _ => Some Decimal.D7
  | 8, _ => Some Decimal.D8
  | 9, _ => Some Decimal.D9
  | _, _ => None
  end.

Definition is_digit (c : ascii) : bool :=
  match digit_value c with Some _ => true | None => false end.

Fixpoint take_digits (s : list ascii) : Decimal.uint * list ascii :=
  match s with
  | c :: r =>
      match digit_value c with
      | Some d => let (u, rest) := take_digits r in (d u, rest)
      | None => (Decimal.Nil, s)
      end
  | [] => (Decimal.Nil, [])
  end.

(** Does a fraction or an exponent follow the integer part? *)
Definition float_follows (s : list ascii) : bool :=
  match s with
  | c :: d :: r =>
      if Ascii.eqb c "." then is_digit d
      else if Ascii.eqb c "e" || Ascii.eqb c "E" then
        is_digit d
        || ((Ascii.eqb d "+" || Ascii.eqb d "-")
            && match r with x :: _ => is_digit x | [] => false end)
      else false
  | _ => false
  end.

Definition too_many_digits (n : nat) : exn :=
  ValueError
    (String.append
       "Exceeds the limit (4300 digits) for integer string conversion: value has "
       (String.append
          (string_of_list_ascii (uint_chars (Nat.to_uint n)))
          " digits; use sys.set_int_max_str_digits() to increase the limit")).

(** An optional minus sign, then a single 0 or a run of digits that
    starts with 1-9; read as an integer when no fraction or exponent
    follows, unless it has more than [max_str_digits] digits. *)
Definition match_number (s : list ascii) : result (json * list ascii) :=
  let (negative, s1) :=
    match s with
    | c :: r => if Ascii.eqb c "-" then (true, r) else (false, s)
    | [] => (false, s)
    end in
  match s1 with
  | c :: r =>
      if is_digit c then
        let (u, rest) :=
          if Ascii.eqb c "0" then (Decimal.D0 Decimal.Nil, r)
          else take_digits s1 in
        if float_follows rest then Raise (OutsideModel "float")
        else if max_str_digits <? Decimal.nb_digits u
        then Raise (too_many_digits (Decimal.nb_digits u))
        else Ok (JInt (Z.of_int (if negative then Decimal.Neg u
                                 else Decimal.Pos u)), rest)
      else Raise (JSONDecodeError "Expecting value")
  | [] => Raise (JSONDecodeError "Expecting value")
  end.

Fixpoint starts_with (prefix s : list ascii) : option (list ascii) :=
  match prefix, s with
  | [], _ => Some s
  | a :: prefix', b :: s' =>
      if Ascii.eqb a b then starts_with prefix' s' else None
  | _ :: _, [] => None
  end.

(** [scan_once fuel depth s]: the JSON value at the start of [s] and
    what follows it.  [fuel] bounds the number of calls and [depth] the
    containers that may still be entered. *)
Fixpoint scan_once (fuel depth : nat) (s : list ascii)
    : result (json * list ascii) :=
  match fuel with
  | 0 => Raise (OutsideModel "out of fuel")
  | S fuel' =>
      match s with
      | [] => Raise (JSONDecodeError "Expecting value")
      | c :: r =>
          if Ascii.eqb c quote then
            let* (str, rest) := scanstring r in
            Ok (JString (string_of_list_ascii str), rest)
          else if Ascii.eqb c "{" then
            match depth with
            | 0 => too_deep
            | S depth' =>
                match skip_whitespace r with
                | x :: r' =>
                    if Ascii.eqb x "}" then Ok (JObject [], r')
                    else let* (pairs, rest) :=
                           parse_pairs fuel' depth' (x :: r') in
                         Ok (JObject (dict_of_pairs pairs), rest)
                | [] => parse_pairs_error
                end
            end
          else if Ascii.eqb c "[" then
            match depth with
            | 0 => too_deep
            | S depth' =>
                match skip_whitespace r with
                | x :: r' =>
                    if Ascii.eqb x "]" then Ok (JArray [], r')
                    else let* (items, rest) :=
                           parse_items fuel' depth' (x :: r') in
                         Ok (JArray items, rest)
                | [] => Raise (JSONDecodeError "Expecting value")
                end
            end
          else
            match starts_with (chars_of "null") s,
                  starts_with (chars_of "true") s,
                  starts_with (chars_of "false") s with
            | Some rest, _, _ => Ok (JNull, rest)
            | _, Some rest, _ => Ok (JBool true, rest)
            | _, _, Some rest => Ok (JBool false, rest)
            | _, _, _ =>
                match starts_with (chars_of "NaN") s,
                      starts_with (chars_of "Infinity") s,
                      starts_with (chars_of "-Infinity") s with
                | None, None, None => match_number s
                | _, _, _ => Raise (OutsideModel "float")
                end
            end
      end
  end

(** The items of an array, from the first item to the closing bracket. *)
with parse_items (fuel depth : nat) (s : list ascii)
    : result (list json * list ascii) :=
  match fuel with
  | 0 => Raise (OutsideModel "out of fuel")
  | S fuel' =>
      let* (v, s1) := scan_once fuel' depth s in
      match skip_whitespace s1 with
      | c :: r =>
          if Ascii.eqb c "]" then Ok ([v], r)
          else if Ascii.eqb c "," then
            let* (vs, rest) := parse_items fuel' depth (skip_whitespace r) in
            Ok (v :: vs, rest)
          else Raise (JSONDecodeError "Expecting ',' delimiter")
      | [] => Raise (JSONDecodeError "Expecting ',' delimiter")
      end
  end

(** The pairs of an object, from the first key to the closing brace. *)
with parse_pairs (fuel depth : nat) (s : list ascii)
    : result (list (string * json) * list ascii) :=
  match fuel with
  | 0 => Raise (OutsideModel "out of fuel")
  | S fuel' =>
      match s with
      | c :: r =>
          if Ascii.eqb c quote then
            let* (key, s1) := scanstring r in
            match skip_whitespace s1 with
            | c1 :: r1 =>
                if Ascii.eqb c1 ":" then
                  let* (v, s2) :=
                    scan_once fuel' depth (skip_whitespace r1) in
                  match skip_whitespace s2 with
                  | c2 :: r2 =>
                      if Ascii.eqb c2 "}"
                      then Ok ([(string_of_list_ascii key, v)], r2)
                      else if Ascii.eqb c2 "," then
                        let* (ps, rest) :=
                          parse_pairs fuel' depth (skip_whitespace r2) in
                        Ok ((string_of_list_ascii key, v) :: ps, rest)
                      else Raise (JSONDecodeError "Expecting ',' delimiter")
                  | [] => Raise (JSONDecodeError "Expecting ',' delimiter")
                  end
                else Raise (JSONDecodeError "Expecting ':' delimiter")
            | [] => Raise (JSONDecodeError "Expecting ':' delimiter")
            end
          else parse_pairs_error
      | [] => parse_pairs_error
      end
  end.

(** [json.loads]: one value, white space around it, nothing else. *)
Definition loads (s : list ascii) : result json :=
  let* (v, rest) :=
    scan_once (S (length s)) nesting_limit (skip_whitespace s) in
  match skip_whitespace rest with
  | [] => Ok v
  | _ :: _ => Raise (JSONDecodeError "Extra data")
  end.

End Json.

(** ** 2. File processors

    The files are a finite map from path to text: a path stands for
    one file, and two different paths for two files (no links, no two
    spellings of one path).  Every [open] is recorded, so that a theorem
    can say that an operation touches no file. *)

Inductive open_mode := ModeRead | ModeWrite.

Record world := {
  files : gmap string string;
  opened : list (string * open_mode)
}.

Definition record_open (filename : string) (mode : open_mode) (w : world)
    : world :=
  {| files := files w; opened := opened w ++ [(filename, mode)] |}.

Definition write_text (filename text : string) (w : world) : world :=
  {| files := <[filename := text]> (files w);
     opened := opened w ++ [(filename, ModeWrite)] |}.

Record FileProcessor := { filename : string }.

Module CSVProcessor.

(** A missing file reads as no rows; an error of the reader is not
    caught. *)
Definition read_csv (self : FileProcessor) (w : world)
    : result (list (list string)) * world :=
  match files w !! filename self with
  | None => (Ok [], record_open (filename self) ModeRead w)
  | Some text =>
      (rows <- Csv.reader (Csv.lines (chars_of text)) ;;
       Ok (map (map string_of_list_ascii) rows),
       record_open (filename self) ModeRead w)
  end.

Definition write_csv (self : FileProcessor) (rows : list (list string))
    (w : world) : result unit * world :=
  (Ok tt,
   write_text (filename self)
     (string_of_list_ascii (Csv.writerows (map (map chars_of) rows))) w).

End CSVProcessor.

Module JSONProcessor.

(** A missing file reads as the empty mapping; a document that does
    not parse raises. *)
Definition read_json (self : FileProcessor) (w : world)
    : result Json.json * world :=
  match files w !! filename self with
  | None => (Ok (Json.JObject []), record_open (filename self) ModeRead w)
  | Some text =>
      (Json.loads (chars_of text), record_open (filename self) ModeRead w)
  end.

(** [open(..., 'w')] empties the file, then [json.dump] writes chunk by
    chunk: when it raises, the file keeps what was written until then. *)
Definition write_json (self : FileProcessor) (data : Json.json) (w : world)
    : result unit * world :=
  let (text, err) := Json.dump data in
  (match err with
   | Some e => Raise e
   | None => Ok tt
   end,
   write_text (filename self) (string_of_list_ascii text) w).

End JSONProcessor.

(** ** 3. ContactManager *)

Module ContactManager.

Record t := {
  csv_processor : FileProcessor;
  json_processor : FileProcessor;
  contacts : list (list string);
  metadata : Json.json
}.

Definition InvalidEmail : exn := ValueError "Invalid email format.".
Definition InvalidPhone : exn := ValueError "Invalid phone number format.".

(** [__init__] *)
Definition init (csv_file json_file : string) (w : world)
    : result t * world :=
  let csvp := {| filename := csv_file |} in
  let jsonp := {| filename := json_file |} in
  match CSVProcessor.read_csv csvp w with
  | (Raise e, w1) => (Raise e, w1)
  | (Ok rows, w1) =>
      match JSONProcessor.read_json jsonp w1 with
      | (Raise e, w2) => (Raise e, w2)
      | (Ok data, w2) =>
          (Ok {| csv_processor := csvp; json_processor := jsonp;
                 contacts := rows; metadata := data |}, w2)
      end
  end.

Definition with_contacts (self : t) (rows : list (list string)) : t :=
  {| csv_processor := csv_processor self;
     json_processor := json_processor self;
     contacts := rows; metadata := metadata self |}.

Definition with_metadata (self : t) (data : Json.json) : t :=
  {| csv_processor := csv_processor self;
     json_processor := json_processor self;
     contacts := contacts self; metadata := data |}.

(** Every method takes the manager and the world and returns what it
    returns or raises, with the manager and the world it leaves. *)
Definition add_contact (self : t) (name email phone : string) (w : world)
    : result unit * t * world :=
  match MyLibrary.extract_emails email with
  | [] => (Raise InvalidEmail, self, w)
  | _ :: _ =>
      if negb (MyLibrary.validate_phone_number phone)
      then (Raise InvalidPhone, self, w)
      else (Ok tt,
            with_contacts self (contacts self ++ [[name; email; phone]]), w)
  end.

Definition save_contacts (self : t) (w : world) : result unit * t * world :=
  let (r, w') := CSVProcessor.write_csv (csv_processor self) (contacts self) w in
  (r, self, w').

(** [self.metadata[key] = value] needs a mapping: on anything else that
    [json.load] may have returned, the assignment raises.  On a mapping
    the key is assigned first, so the mapping is changed also when
    [write_json] raises. *)
Definition save_metadata (self : t) (key : string) (value : Json.json)
    (w : world) : result unit * t * world :=
  match metadata self with
  | Json.JObject d =>
      let self' := with_metadata self (Json.JObject (Json.dict_set d key value)) in
      let (r, w') :=
        JSONProcessor.write_json (json_processor self) (metadata self') w in
      (r, self', w')
  | Json.JArray _ =>
      (Raise (TypeError "list indices must be integers or slices, not str"),
       self, w)
  | Json.JNull =>
      (Raise (TypeError "'NoneType' object does not support item assignment"),
       self, w)
  | Json.JBool _ =>
      (Raise (TypeError "'bool' object does not support item assignment"),
       self, w)
  | Json.JInt _ =>
      (Raise (TypeError "'int' object does not support item assignment"),
       self, w)
  | Json.JString _ =>
      (Raise (TypeError "'str' object does not support item assignment"),
       self, w)
  end.

(** The calls a client can make, and a run of them.  A call that
    raises leaves the manager as the method left it, and the run goes
    on. *)
Inductive op :=
| AddContact (name email phone : string)
| SaveContacts
| SaveMetadata (key : string) (value : Json.json).

Definition run_op (o : op) (self : t) (w : world) : result unit * t * world :=
  match o with
  | AddContact name email phone => add_contact self name email phone w
  | SaveContacts => save_contacts self w
  | SaveMetadata key value => save_metadata self key value w
  end.

Fixpoint run_ops (ops : list op) (self : t) (w : world) : t * world :=
  match ops with
  | [] => (self, w)
  | o :: rest =>
      match run_op o self w with
      | (_, self', w') => run_ops rest self' w'
      end
  end.

(** The values a run of calls saves are well-formed JSON values. *)
Definition values_wf (ops : list op) : Prop :=
  Forall (fun o => match o with
                   | SaveMetadata _ value => Json.wf value
                   | _ => True
                   end) ops.

(** A contact that passes the two checks of [add_contact]. *)
Definition valid_contact (row : list string) : Prop :=
  exists name email phone,
    row = [name; email; phone] /\
    MyLibrary.extract_emails email <> [] /\
    MyLibrary.validate_phone_number phone = true.

End ContactManager.

(** ** Sample values *)

Module Samples.

Definition no_files : world := {| files := ∅; opened := [] |}.

(** The world and the manager after [ContactManager("contacts.csv",
    "metadata.json")] where no file exists. *)
Definition after_init : world :=
  {| files := ∅;
     opened := [("contacts.csv"%string, ModeRead);
                ("metadata.json"%string, ModeRead)] |}.

Definition fresh_manager : ContactManager.t :=
  {| ContactManager.csv_processor := {| filename := "contacts.csv" |};
     ContactManager.json_processor := {| filename := "metadata.json" |};
     ContactManager.contacts := [];
     ContactManager.metadata := Json.JObject [] |}.

Definition some_calls : list ContactManager.op :=
  [ContactManager.AddContact "Mol7" "Mol7@kent.ac.uk" "123-456-7890";
   ContactManager.AddContact "Invalid Email" "invalid-email" "123-456-7890";
   ContactManager.SaveContacts].





End Samples.

(** ** The shapes the specification names *)

Module Shapes.

Definition chars (s : string) : list ascii := list_ascii_of_string s.

Definition is_digit (c : ascii) : bool := (48 <=? code c) && (code c <=? 57).

Definition is_letter (c : ascii) : bool :=
  ((97 <=? code c) && (code c <=? 122)) || ((65 <=? code c) && (code c <=? 90)).

Definition is_white (c : ascii) : bool :=
  ((9 <=? code c) && (code c <=? 13)) || ((28 <=? code c) && (code c <=? 32))
  || (code c =? 133) || (code c =? 160).

Definition one_of (l : list ascii) (c : ascii) : bool :=
  existsb (Ascii.eqb c) l.

(** [digits k w]: [w] is [k] decimal digits. *)
Definition digits (k : nat) (w : list ascii) : Prop :=
  length w = k /\ Forall (fun c => is_digit c = true) w.

(** The four phone shapes; [sep] says which characters may stand
    between a parenthesized area code and the number. *)
Inductive phone_shape (sep : ascii -> Prop) : list ascii -> Prop :=
| shape_paren_sep area w a b :
    digits 3 area -> sep w -> digits 3 a -> digits 4 b ->
    phone_shape sep ("(" :: area ++ ")" :: w :: a ++ "-" :: b)%char
| shape_paren area a b :
    digits 3 area -> digits 3 a -> digits 4 b ->
    phone_shape sep ("(" :: area ++ ")" :: a ++ "-" :: b)%char
| shape_hyphen area a b :
    digits 3 area -> digits 3 a -> digits 4 b ->
    phone_shape sep (area ++ "-" :: a ++ "-" :: b)%char
| shape_bare a b :
    digits 3 a -> digits 4 b ->
    phone_shape sep (a ++ "-" :: b)%char.

(** [(DDD) DDD-DDDD], [(DDD)DDD-DDDD], [DDD-DDD-DDDD], [DDD-DDDD]. *)
Definition one_space (c : ascii) : Prop := c = " "%char.

(** The same with any white space character after the parenthesis. *)
Definition one_white (c : ascii) : Prop := is_white c = true.

(** The character sets of an address. *)
Definition local_char (c : ascii) : bool :=
  is_letter c || is_digit c || one_of ["_"; "."; "+"; "-"]%char c.
Definition domain_char (c : ascii) : bool :=
  is_letter c || is_digit c || one_of ["-"]%char c.
Definition tail_char (c : ascii) : bool :=
  is_letter c || is_digit c || one_of ["-"; "."]%char c.

(** [run p w]: [w] is one or more characters of the set [p]. *)
Definition run (p : ascii -> bool) (w : list ascii) : Prop :=
  w <> [] /\ Forall (fun c => p c = true) w.

(** What the pattern matches: a local part, [@], a first domain group,
    a dot, and one or more further characters that may be dots. *)
Definition email_shape (e : list ascii) : Prop :=
  exists l d t,
    e = (l ++ "@" :: d ++ "." :: t)%char /\
    run local_char l /\ run domain_char d /\ run tail_char t.

(** What the specification describes: a local part, [@], and one or
    more groups separated by dots. *)
Fixpoint join_dots (groups : list (list ascii)) : list ascii :=
  match groups with
  | [] => []
  | [g] => g
  | g :: rest => g ++ "."%char :: join_dots rest
  end.

Definition claimed_email_shape (e : list ascii) : Prop :=
  exists l groups,
    e = (l ++ "@" :: join_dots groups)%char /\
    run local_char l /\ groups <> [] /\ Forall (run domain_char) groups.

Definition has_email_prefix (s : list ascii) : Prop :=
  exists e r, s = e ++ r /\ email_shape e.

(** [extraction text out]: [out] lists, left to right, the addresses
    of [text], each one starting at the first position after the
    previous one where an address starts, and being the longest
    address that starts there. *)
Inductive extraction : list ascii -> list (list ascii) -> Prop :=
| extraction_done text :
    (forall pre suf, text = pre ++ suf -> ~ has_email_prefix suf) ->
    extraction text []
| extraction_next gap e rest out :
    email_shape e ->
    (forall pre suf, gap = pre ++ suf -> suf <> [] ->
                     ~ has_email_prefix (suf ++ e ++ rest)) ->
    (forall e' r', e ++ rest = e' ++ r' -> email_shape e' ->
                   length e' <= length e) ->
    extraction rest out ->
    extraction (gap ++ e ++ rest) (e :: out).

Definition ends_with_lf (l : list ascii) : bool :=
  match rev l with
  | c :: _ => Ascii.eqb c LF
  | [] => false
  end.

End Shapes.

(** ** Notions used in the proofs *)

Module Notions.
Import Re MyLibrary Shapes.

(** [Matches n r s s']: pattern [r] can match the characters between
    state [s] and state [s']. *)
Inductive Matches (n : nat) : regex -> subject -> subject -> Prop :=
| M_literal c s : Matches n (LITERAL c) (c :: s) s
| M_in items c s :
    in_set items c = true -> Matches n (IN items) (c :: s) s
| M_begin s : length s = n -> Matches n (AT AT_BEGINNING) s s
| M_end : Matches n (AT AT_END) [] []
| M_end_lf : Matches n (AT AT_END) [LF] [LF]
| M_seq r1 r2 s s1 s2 :
    Matches n r1 s s1 -> Matches n r2 s1 s2 -> Matches n (SEQ r1 r2) s s2
| M_branch_l r1 r2 s s' :
    Matches n r1 s s' -> Matches n (BRANCH r1 r2) s s'
| M_branch_r r1 r2 s s' :
    Matches n r2 s s' -> Matches n (BRANCH r1 r2) s s'
| M_stop max r s : Matches n (MAX_REPEAT 0 max r) s s
| M_more min max r s s1 s2 :
    max <> Some 0 ->
    Matches n r s s1 ->
    0 < min \/ length s1 < length s ->
    Matches n (MAX_REPEAT (pred min) (option_map pred max) r) s1 s2 ->
    Matches n (MAX_REPEAT min max r) s s2
| M_sub r s s' : Matches n r s s' -> Matches n (SUBPATTERN r) s s'.

(** [member items c]: the character is in the set. *)
Definition member (items : list set_item) (c : ascii) : Prop :=
  in_set items c = true.

(** The first outcome of a greedy run stops where the set ends. *)
Definition no_more (items : list set_item) (rest : list ascii) : Prop :=
  match rest with
  | c :: _ => in_set items c = false
  | [] => True
  end.

(** The number after the optional area code, up to the end. *)
Definition number_pattern : regex :=
  SEQ (times 3 digit) (SEQ (LITERAL "-") (SEQ (times 4 digit) (AT AT_END))).

(** No address starts inside [gap]. *)
Definition leftmost (gap here : list ascii) : Prop :=
  forall pre suf, gap = pre ++ suf -> suf <> [] ->
                  ~ has_email_prefix (suf ++ here).

End Notions.

Module CsvReading.
Import Csv.

Definition plain (c : ascii) : Prop := is_newline c = false.

(** [consumes p x p']: reading the characters [x] takes the parser from
    [p] to [p'], whatever line the characters fall on and without
    completing a record. *)
Definition consumes (p : parser) (x : list ascii) (p' : parser) : Prop :=
  forall p0 cur s,
    feed p0 cur = Ok p ->
    exists p0' cur',
      feed p0' cur' = Ok p' /\
      reader_loop p0 (lines_from cur (x ++ s))
      = reader_loop p0' (lines_from cur' s).

Definition extend (p : parser) (f : list ascii) (s : pstate) : parser :=
  {| state := s; fields := fields p; field := field p ++ f |}.

Definition ready (p : parser) : Prop :=
  (state p = START_RECORD \/ state p = START_FIELD) /\ field p = [].

Definition done_state (s : pstate) : Prop :=
  s = START_FIELD \/ s = IN_FIELD \/ s = QUOTE_IN_QUOTED_FIELD.

End CsvReading.

Module JsonReading.
Import Json.




End JsonReading.

(** ** FileProcessor: the two methods of the base class

    [open(filename, 'r')] and [open(filename, 'w')] are text mode with
    the default newline handling: on reading, CR LF and a lone CR
    become LF; on writing, a POSIX system leaves the text as it is. *)

Module FileProcessorMethods.

Fixpoint translate_newlines (s : list ascii) : list ascii :=
  match s with
  | [] => []
  | c :: r =>
      if Ascii.eqb c CR then
        match r with
        | c2 :: r' =>
            if Ascii.eqb c2 LF then LF :: translate_newlines r'
            else LF :: translate_newlines r
        | [] => [LF]
        end
      else c :: translate_newlines r
  end.

(** [readlines]: the text cut after every line feed. *)
Fixpoint readlines_from (cur s : list ascii) : list (list ascii) :=
  match s with
  | [] => match cur with [] => [] | _ => [cur] end
  | c :: r =>
      if Ascii.eqb c LF then (cur ++ [LF]) :: readlines_from [] r
      else readlines_from (cur ++ [c]) r
  end.

Definition readlines (s : list ascii) : list (list ascii) :=
  readlines_from [] s.

(** A missing file reads as no lines. *)
Definition read_file (self : FileProcessor) (w : world)
    : list string * world :=
  match files w !! filename self with
  | None => ([], record_open (filename self) ModeRead w)
  | Some text =>
      (map string_of_list_ascii
         (readlines (translate_newlines (chars_of text))),
       record_open (filename self) ModeRead w)
  end.

(** [writelines] writes the strings one after the other. *)
Definition write_file (self : FileProcessor) (content : list string)
    (w : world) : result unit * world :=
  (Ok tt,
   write_text (filename self) (fold_right String.append EmptyString content) w).

End FileProcessorMethods.

(** ** Further notions used in the statements *)

Module MoreNotions.
Import Shapes.

(** [substring e text]: [e] occurs in [text]. *)
Definition substring (e text : list ascii) : Prop :=
  exists pre suf, text = pre ++ e ++ suf.

Definition count_digits (l : list ascii) : nat :=
  length (List.filter is_digit l).

(** A printable ASCII character or a line feed. *)
Definition plain_ascii (c : ascii) : bool :=
  ((32 <=? code c) && (code c <=? 126)) || Ascii.eqb c LF.

(** What [json.dump] writes of a value, in full or until it raises, is
    plain. *)
Definition plain_text (v : Json.json) : Prop :=
  forall level,
    forallb plain_ascii (fst (Json.iterencode level v)) = true.


(** One [add_contact] call per triple. *)
Definition add_calls (ts : list (string * string * string))
    : list ContactManager.op :=
  map (fun t => ContactManager.AddContact (fst (fst t)) (snd (fst t)) (snd t))
    ts.

Definition rows_of (ts : list (string * string * string))
    : list (list string) :=
  map (fun t => [fst (fst t); snd (fst t); snd t]) ts.

Definition accepted (t : string * string * string) : Prop :=
  MyLibrary.extract_emails (snd (fst t)) <> []
  /\ MyLibrary.validate_phone_number (snd t) = true.

(** A line of text: characters other than CR and LF, then one LF. *)
Definition terminated_line (s : string) : Prop :=
  exists body,
    chars_of s = body ++ [LF]
    /\ Forall (fun c => Csv.is_newline c = false) body.

Definition is_json_whitespace (c : ascii) : Prop :=
  Json.is_whitespace c = true.

(** A record as the writer lays it out, without the line terminator. *)
Definition record_text (row : list (list ascii)) : list ascii :=
  let rec := Csv.join_fields row in
  if (0 <? length row) && (length rec =? 0) then [Csv.quote; Csv.quote]
  else rec.

(** The records one per line, every line ended by a line feed alone. *)
Definition unix_text (rows : list (list (list ascii))) : list ascii :=
  flat_map (fun row => record_text row ++ [LF]) rows.

(** A line as the file object hands it out: characters that are no line
    break, then the line break characters. *)
Definition line_shape (l : list ascii) : Prop :=
  exists body e,
    l = body ++ e /\ Forall CsvReading.plain body
    /\ Forall (fun c => Csv.is_newline c = true) e.

(** The two calls of the example run that write the files. *)
Definition save_all (key : string) (value : Json.json)
    : list ContactManager.op :=
  [ContactManager.SaveContacts; ContactManager.SaveMetadata key value].

End MoreNotions.

(** * Theorems *)

(** ** The matcher against a declarative reading of patterns *)

Module ReFacts.
Import Re Notions.


Lemma Matches_length n r s s' : Matches n r s s' -> length s' <= length s.
Proof. induction 1; simpl in *; lia. Qed.

Lemma max_repeat_sound n r :
  (forall s s', In s' (exec n r s) -> Matches n r s s') ->
  forall fuel min max s s',
    In s' (max_repeat (exec n r) fuel min max s) ->
    Matches n (MAX_REPEAT min max r) s s'.
Proof.
  intros IH fuel. induction fuel as [|fuel IHf]; intros min max s s' Hin.
  - simpl in Hin. destruct min; simpl in Hin; [|tauto].
    destruct Hin as [<-|[]]. constructor.
  - assert (Hstop : In s' (match min with 0 => [s] | S _ => [] end) ->
                    Matches n (MAX_REPEAT min max r) s s').
    { destruct min; simpl; [|tauto]. intros [<-|[]]. constructor. }
    simpl in Hin. destruct max as [[|m]|]; auto.
    + apply in_app_or in Hin as [Hin|Hin]; auto.
      apply in_flat_map in Hin as (s1 & H1 & H2).
      destruct ((0 <? min) || (length s1 <? length s)) eqn:Hp; [|destruct H2].
      apply M_more with (s1 := s1); [discriminate | auto | | auto].
      apply orb_true_iff in Hp as [Hp|Hp];
        [left; apply Nat.ltb_lt in Hp | right; apply Nat.ltb_lt in Hp]; lia.
    + apply in_app_or in Hin as [Hin|Hin]; auto.
      apply in_flat_map in Hin as (s1 & H1 & H2).
      destruct ((0 <? min) || (length s1 <? length s)) eqn:Hp; [|destruct H2].
      apply M_more with (s1 := s1); [discriminate | auto | | auto].
      apply orb_true_iff in Hp as [Hp|Hp];
        [left; apply Nat.ltb_lt in Hp | right; apply Nat.ltb_lt in Hp]; lia.
Qed.

Lemma exec_sound n r : forall s s', In s' (exec n r s) -> Matches n r s s'.
Proof.
  induction r; intros s s' Hin; simpl in Hin.
  - destruct s as [|x s]; [destruct Hin|].
    destruct (Ascii.eqb x c) eqn:E; [|destruct Hin].
    apply Ascii.eqb_eq in E. subst. destruct Hin as [<-|[]]. constructor.
  - destruct s as [|x s]; [destruct Hin|].
    destruct (in_set items x) eqn:E; [|destruct Hin].
    destruct Hin as [<-|[]]. now constructor.
  - destruct a.
    + destruct (length s =? n) eqn:E; [|destruct Hin].
      apply Nat.eqb_eq in E. destruct Hin as [<-|[]]. now constructor.
    + destruct s as [|x [|y s]]; [destruct Hin as [<-|[]]; constructor| |destruct Hin].
      destruct (Ascii.eqb x LF) eqn:E; [|destruct Hin].
      apply Ascii.eqb_eq in E. subst. destruct Hin as [<-|[]]. constructor.
  - apply in_flat_map in Hin as (s1 & H1 & H2). econstructor; eauto.
  - apply in_app_or in Hin as [Hin|Hin];
      [apply M_branch_l | apply M_branch_r]; auto.
  - eapply max_repeat_sound; eauto.
  - constructor; auto.
Qed.

Lemma max_repeat_mono body fuel :
  forall fuel' min max s s',
    fuel <= fuel' ->
    In s' (max_repeat body fuel min max s) ->
    In s' (max_repeat body fuel' min max s).
Proof.
  induction fuel as [|fuel IH]; intros fuel' min max s s' Hle Hin.
  - simpl in Hin. destruct fuel'; simpl; auto.
    destruct max as [[|m]|]; auto; apply in_or_app; auto.
  - destruct fuel' as [|fuel']; [lia|]. simpl in *.
    destruct max as [[|m]|]; auto.
    + apply in_app_or in Hin as [Hin|Hin]; apply in_or_app; auto. left.
      apply in_flat_map in Hin as (s1 & H1 & H2). apply in_flat_map.
      exists s1; split; auto.
      destruct ((0 <? min) || (length s1 <? length s)); auto.
      eapply IH; [|eauto]. lia.
    + apply in_app_or in Hin as [Hin|Hin]; apply in_or_app; auto. left.
      apply in_flat_map in Hin as (s1 & H1 & H2). apply in_flat_map.
      exists s1; split; auto.
      destruct ((0 <? min) || (length s1 <? length s)); auto.
      eapply IH; [|eauto]. lia.
Qed.

(** The fuel given to a repetition is enough: every declarative match
    is among the outcomes. *)
Lemma exec_complete n r s s' : Matches n r s s' -> In s' (exec n r s).
Proof.
  induction 1; simpl.
  - rewrite Ascii.eqb_refl. now left.
  - rewrite H. now left.
  - subst. rewrite Nat.eqb_refl. now left.
  - now left.
  - now left.
  - apply in_flat_map. eauto.
  - apply in_or_app; auto.
  - apply in_or_app; auto.
  - destruct (repeat_fuel 0 max s); simpl; [now left|].
    destruct max as [[|m]|]; [now left| |]; apply in_or_app; right; now left.
  - assert (Hlen := Matches_length _ _ _ _ H0).
    simpl in IHMatches2.
    assert (Hfuel : S (repeat_fuel (pred min) (option_map pred max) s1)
                    <= repeat_fuel min max s).
    { destruct max as [[|m]|]; simpl; [congruence|lia|]. lia. }
    destruct (repeat_fuel min max s) as [|fuel] eqn:Ef; [lia|].
    simpl. destruct max as [[|m]|]; [congruence| |].
    + apply in_or_app. left. apply in_flat_map. exists s1. split; auto.
      replace ((0 <? min) || (length s1 <? length s)) with true.
      * eapply max_repeat_mono; [|exact IHMatches2]. lia.
      * symmetry. apply orb_true_iff.
        destruct H1 as [?|?]; [left|right]; apply Nat.ltb_lt; lia.
    + apply in_or_app. left. apply in_flat_map. exists s1. split; auto.
      replace ((0 <? min) || (length s1 <? length s)) with true.
      * eapply max_repeat_mono; [|exact IHMatches2]. lia.
      * symmetry. apply orb_true_iff.
        destruct H1 as [?|?]; [left|right]; apply Nat.ltb_lt; lia.
  - auto.
Qed.

Lemma exec_Matches n r s s' : In s' (exec n r s) <-> Matches n r s s'.
Proof. split; [apply exec_sound | apply exec_complete]. Qed.

End ReFacts.

(** ** validate_phone_number *)

Module PhoneFacts.
Import Re ReFacts MyLibrary Shapes Notions.

Lemma chars_app (s t : string) : chars (s ++ t) = chars s ++ chars t.
Proof. induction s as [|c s IH]; simpl; [reflexivity|]. now f_equal. Qed.

Lemma chars_inj (s t : string) : chars s = chars t -> s = t.
Proof.
  intros H. rewrite <- (string_of_list_ascii_of_string s),
    <- (string_of_list_ascii_of_string t). unfold chars in H. now rewrite H.
Qed.

Lemma in_set_digit c : in_set [SetCategory CATEGORY_DIGIT] c = is_digit c.
Proof. unfold in_set; simpl. now rewrite orb_false_r. Qed.

Lemma in_set_space c : in_set [SetCategory CATEGORY_SPACE] c = is_white c.
Proof. unfold in_set; simpl. now rewrite orb_false_r. Qed.

Lemma Matches_times n items k :
  forall w s, length w = k -> Forall (fun c => in_set items c = true) w ->
    Matches n (times k (IN items)) (w ++ s) s.
Proof.
  induction k as [|k IH]; intros w s Hl Hw.
  - destruct w; [|discriminate]. apply M_stop.
  - destruct w as [|c w]; [discriminate|]. inversion Hw; subst.
    apply M_more with (s1 := w ++ s); [discriminate| |left; lia|].
    + now constructor.
    + apply IH; auto.
Qed.

Lemma Matches_times_inv n items k :
  forall s s', Matches n (times k (IN items)) s s' ->
    exists w, s = w ++ s' /\ length w = k /\
              Forall (fun c => in_set items c = true) w.
Proof.
  induction k as [|k IH]; intros s s' H; inversion H; subst.
  - exists []. auto.
  - congruence.
  - match goal with
    | H1 : Matches _ (IN _) _ _, H2 : Matches _ (MAX_REPEAT _ _ _) _ _ |- _ =>
        inversion H1; subst; apply IH in H2 as (w & -> & Hl & Hw)
    end.
    eexists (_ :: w). repeat split; simpl; auto.
Qed.

Lemma Matches_optional_inv n r s s' :
  Matches n (optional r) s s' -> s' = s \/ Matches n r s s'.
Proof.
  intros H. inversion H; subst; auto. right.
  match goal with
  | H2 : Matches _ (MAX_REPEAT _ _ _) _ _ |- _ =>
      inversion H2; subst; [assumption | simpl in *; congruence]
  end.
Qed.

Lemma Matches_optional n r s s' :
  Matches n r s s' -> length s' < length s -> Matches n (optional r) s s'.
Proof.
  intros H Hl. apply M_more with (s1 := s'); [discriminate|auto|auto|].
  apply M_stop.
Qed.

Lemma digits_in_set k w :
  digits k w <->
  length w = k /\ Forall (fun c => in_set [SetCategory CATEGORY_DIGIT] c = true) w.
Proof.
  unfold digits. split; intros [Hl Hw]; split; auto;
    (eapply List.Forall_impl; [|exact Hw]); intros c; cbv beta;
    now rewrite in_set_digit.
Qed.

Ltac inv_matches :=
  repeat match goal with
    | H : Matches _ (times _ _) _ _ |- _ =>
        apply Matches_times_inv in H as (? & -> & ? & ?)
    | H : Matches _ (optional _) _ _ |- _ =>
        apply Matches_optional_inv in H as [?|H]; [subst|]
    | H : Matches _ (SEQ _ _) _ _ |- _ => inversion H; clear H; subst
    | H : Matches _ (LITERAL _) _ _ |- _ => inversion H; clear H; subst
    | H : Matches _ (IN _) _ _ |- _ => inversion H; clear H; subst
    | H : Matches _ (AT _) _ _ |- _ => inversion H; clear H; subst
    | H : Matches _ (BRANCH _ _) _ _ |- _ => inversion H; clear H; subst
    | H : Matches _ (SUBPATTERN _) _ _ |- _ => inversion H; clear H; subst
    end.

Ltac list_norm :=
  repeat (rewrite <- ?app_assoc, <- ?app_comm_cons; simpl); rewrite ?app_nil_r.

Lemma digits_of_set k w :
  length w = k ->
  Forall (fun c => in_set [SetCategory CATEGORY_DIGIT] c = true) w ->
  digits k w.
Proof. intros. apply digits_in_set. auto. Qed.

Lemma phone_pattern_shape l s' :
  Matches (length l) phone_pattern l s' ->
  (s' = [] \/ s' = [LF]) /\
  exists p, l = p ++ s' /\ phone_shape one_white p.
Proof.
  unfold phone_pattern, digit, space. intros H. inv_matches.
  all: split; [auto|].
  all: match goal with
       | |- exists p, ("(" :: ?ar ++ ")" :: ?w :: ?a ++ "-" :: ?b ++ ?r)%char
                      = p ++ ?r /\ _ =>
           exists ("(" :: ar ++ ")" :: w :: a ++ "-" :: b)%char;
           split; [list_norm; reflexivity | apply shape_paren_sep]
       | |- exists p, ("(" :: ?ar ++ ")" :: ?a ++ "-" :: ?b ++ ?r)%char
                      = p ++ ?r /\ _ =>
           exists ("(" :: ar ++ ")" :: a ++ "-" :: b)%char;
           split; [list_norm; reflexivity | apply shape_paren]
       | |- exists p, (?ar ++ "-" :: ?a ++ "-" :: ?b ++ ?r)%char
                      = p ++ ?r /\ _ =>
           exists (ar ++ "-" :: a ++ "-" :: b)%char;
           split; [list_norm; reflexivity | apply shape_hyphen]
       | |- exists p, (?a ++ "-" :: ?b ++ ?r)%char = p ++ ?r /\ _ =>
           exists (a ++ "-" :: b)%char;
           split; [list_norm; reflexivity | apply shape_bare]
       end.
  all: try (apply digits_of_set; assumption).
  all: unfold one_white; rewrite <- in_set_space; assumption.
Qed.


Lemma number_pattern_Matches n a b s' :
  digits 3 a -> digits 4 b -> s' = [] \/ s' = [LF] ->
  Matches n number_pattern (a ++ "-"%char :: b ++ s') s'.
Proof.
  intros Ha Hb Hs. apply digits_in_set in Ha as [? ?], Hb as [? ?].
  unfold number_pattern, digit.
  eapply M_seq; [apply Matches_times; eassumption|].
  eapply M_seq; [apply M_literal|].
  eapply M_seq; [apply Matches_times; eassumption|].
  destruct Hs as [->| ->]; constructor.
Qed.

Ltac show_len := repeat (rewrite List.length_app || rewrite List.length_cons); lia.

Lemma shape_phone_pattern p s' :
  phone_shape one_white p -> s' = [] \/ s' = [LF] ->
  Matches (length (p ++ s')) phone_pattern (p ++ s') s'.
Proof.
  intros Hp Hs. unfold phone_pattern.
  eapply M_seq; [now apply M_begin|].
  fold number_pattern.
  destruct Hp as [area w a b Har Hw Ha Hb | area a b Har Ha Hb
                 | area a b Har Ha Hb | a b Ha Hb]; list_norm.
  - apply M_seq with (s1 := (a ++ "-" :: b ++ s')%char);
      [|now apply number_pattern_Matches].
    apply Matches_optional; [|show_len].
    apply M_sub, M_branch_l, M_sub.
    apply digits_in_set in Har as [? ?].
    eapply M_seq; [apply M_literal|].
    eapply M_seq; [apply Matches_times; eassumption|].
    eapply M_seq; [apply M_literal|].
    apply Matches_optional; [|simpl; lia].
    constructor. now rewrite in_set_space.
  - apply M_seq with (s1 := (a ++ "-" :: b ++ s')%char);
      [|now apply number_pattern_Matches].
    apply Matches_optional; [|show_len].
    apply M_sub, M_branch_l, M_sub.
    apply digits_in_set in Har as [? ?].
    eapply M_seq; [apply M_literal|].
    eapply M_seq; [apply Matches_times; eassumption|].
    eapply M_seq; [apply M_literal|].
    apply M_stop.
  - apply M_seq with (s1 := (a ++ "-" :: b ++ s')%char);
      [|now apply number_pattern_Matches].
    apply Matches_optional; [|show_len].
    apply M_sub, M_branch_r, M_sub.
    apply digits_in_set in Har as [? ?].
    eapply M_seq; [apply Matches_times; eassumption|].
    apply M_literal.
  - apply M_seq with (s1 := (a ++ "-" :: b ++ s')%char);
      [|now apply number_pattern_Matches].
    apply M_stop.
Qed.

Lemma validate_phone_number_Matches s :
  validate_phone_number s = true <->
  exists s', Matches (length (chars s)) phone_pattern (chars s) s'.
Proof.
  unfold validate_phone_number, re_match. fold (chars s).
  destruct (exec (length (chars s)) phone_pattern (chars s)) as [|s' l] eqn:E;
    simpl; split; try discriminate; auto.
  - intros [s' H]. apply exec_complete in H. rewrite E in H. destruct H.
  - intros _. exists s'. apply exec_sound. rewrite E. now left.
Qed.

(** The whole of what the validator accepts: one of the shapes, or one
    of the shapes followed by a single line feed. *)
Lemma validate_phone_number_spec s :
  validate_phone_number s = true <->
  exists p, phone_shape one_white p /\ (chars s = p \/ chars s = p ++ [LF]).
Proof.
  rewrite validate_phone_number_Matches. split.
  - intros [s' H]. apply phone_pattern_shape in H as ([->| ->] & p & E & Hp);
      exists p; rewrite E, ?app_nil_r; auto.
  - intros (p & Hp & [E|E]); rewrite E.
    + exists []. rewrite <- (app_nil_r p) at 1 2.
      apply shape_phone_pattern; auto.
    + exists [LF]. apply shape_phone_pattern; auto.
Qed.

Lemma digits_3 w :
  digits 3 w ->
  exists a b c, w = [a; b; c] /\
    is_digit a = true /\ is_digit b = true /\ is_digit c = true.
Proof.
  intros [Hl Hw]. destruct w as [|a [|b [|c [|d w]]]]; try discriminate.
  inversion Hw as [|? ? ? Hw1]; inversion Hw1 as [|? ? ? Hw2];
    inversion Hw2; subst. eauto 10.
Qed.

Lemma digits_4 w :
  digits 4 w ->
  exists a b c d, w = [a; b; c; d] /\
    is_digit a = true /\ is_digit b = true /\ is_digit c = true /\
    is_digit d = true.
Proof.
  intros [Hl Hw]. destruct w as [|a [|b [|c [|d [|e w]]]]]; try discriminate.
  inversion Hw as [|? ? ? Hw1]; inversion Hw1 as [|? ? ? Hw2];
    inversion Hw2 as [|? ? ? Hw3]; inversion Hw3; subst. eauto 10.
Qed.

Lemma digit_not_white c : is_digit c = true -> is_white c = true -> False.
Proof.
  unfold is_digit, is_white.
  rewrite !orb_true_iff, !andb_true_iff, !Nat.leb_le, !Nat.eqb_eq. lia.
Qed.

Ltac explode_digits :=
  repeat match goal with
    | H : digits 3 _ |- _ =>
        apply digits_3 in H as (? & ? & ? & -> & ? & ? & ?)
    | H : digits 4 _ |- _ =>
        apply digits_4 in H as (? & ? & ? & ? & -> & ? & ? & ? & ?)
    end.

Ltac char_clash :=
  exfalso;
  match goal with
  | H : is_digit ?c = true |- _ =>
      first [ is_var c; fail 1 | vm_compute in H; discriminate H ]
  | H : is_digit ?c = true, H' : one_white ?c |- _ =>
      exact (digit_not_white c H H')
  end.

(** No shape is a proper prefix of another. *)
Lemma phone_shape_prefix_free p q x y :
  phone_shape one_white p -> phone_shape one_white q ->
  p ++ x = q ++ y -> p = q.
Proof.
  intros Hp Hq E.
  destruct Hp, Hq; explode_digits; simpl in E; injection E; intros; subst;
    first [reflexivity | char_clash].
Qed.

Lemma phone_shape_no_final_lf sep p :
  phone_shape sep p -> ends_with_lf p = false.
Proof.
  intros Hp. destruct Hp; explode_digits; unfold ends_with_lf; simpl;
    match goal with
    | |- Ascii.eqb ?c LF = false =>
        destruct (Ascii.eqb_spec c LF); [subst; char_clash | reflexivity]
    end.
Qed.

Lemma ends_with_lf_snoc p : ends_with_lf (p ++ [LF]) = true.
Proof. unfold ends_with_lf. rewrite rev_app_distr. reflexivity. Qed.

End PhoneFacts.

(** C1 (as stated, refuted): a valid number followed by trailing
    characters is rejected, because the pattern ends with [$]. *)
Lemma validate_phone_number_trailing_garbage_rejected :
  MyLibrary.validate_phone_number "123-4567" = true /\
  MyLibrary.validate_phone_number ("123-4567" ++ "abc") = false.
Proof. split; reflexivity. Qed.

(** C1 (amended): the match is anchored at the start and at the end of
    the string.  If [p] is accepted and [g] is a non-empty run of trailing
    characters other than a single line feed, then [p ++ g] is rejected. *)
Theorem validate_phone_number_anchored_both_ends (p g : string) :
  MyLibrary.validate_phone_number p = true ->
  g <> ""%string ->
  g <> String LF "" ->
  MyLibrary.validate_phone_number (p ++ g) = false.
Proof.
  intros Hp Hg1 Hg2.
  destruct (MyLibrary.validate_phone_number (p ++ g)) eqn:Hpg; [|reflexivity].
  exfalso.
  apply PhoneFacts.validate_phone_number_spec in Hp as (q & Hq & Eq).
  apply PhoneFacts.validate_phone_number_spec in Hpg as (q' & Hq' & Eq').
  rewrite PhoneFacts.chars_app in Eq'.
  assert (Hg : Shapes.chars g <> [] /\ Shapes.chars g <> [LF]).
  { split; intros E; [apply Hg1 | apply Hg2];
      apply PhoneFacts.chars_inj; exact E. }
  destruct Hg as [Hn Hl].
  assert (E : exists x y, q ++ x = q' ++ y /\
                (x = Shapes.chars g \/ x = LF :: Shapes.chars g) /\
                (y = [] \/ y = [LF])).
  { destruct Eq as [Eq|Eq], Eq' as [Eq'|Eq']; rewrite Eq in Eq'.
    - exists (Shapes.chars g), []. rewrite app_nil_r. auto.
    - exists (Shapes.chars g), [LF]. auto.
    - exists (LF :: Shapes.chars g), []. rewrite app_nil_r, <- app_assoc in *. auto.
    - exists (LF :: Shapes.chars g), [LF]. rewrite <- app_assoc in Eq'. auto. }
  destruct E as (x & y & E & Hx & Hy).
  assert (q = q') by (eapply PhoneFacts.phone_shape_prefix_free; eauto).
  subst q'. apply app_inv_head in E.
  destruct Hx as [->| ->], Hy as [->| ->]; congruence.
Qed.

Lemma validate_phone_number_anchored_both_ends_witness :
  MyLibrary.validate_phone_number ("123-4567" ++ "abc") = false.
Proof.
  apply (validate_phone_number_anchored_both_ends "123-4567" "abc");
    [reflexivity | discriminate | discriminate].
Defined.

(** C2 (as stated, refuted): a tab after the parenthesized area code is
    accepted, although the string is none of the four shapes. *)
Lemma validate_phone_number_accepts_tab :
  MyLibrary.validate_phone_number ("(123)" ++ String TAB "456-7890") = true /\
  ~ Shapes.phone_shape Shapes.one_space
      (Shapes.chars ("(123)" ++ String TAB "456-7890")).
Proof.
  split; [reflexivity|]. intros H. inversion H; PhoneFacts.explode_digits;
    simpl in *; try discriminate.
  match goal with
  | E : _ :: _ = _ :: _ |- _ => injection E; intros; subst
  end.
  match goal with
  | Hw : Shapes.one_space _ |- _ => discriminate Hw
  end.
Qed.

(** C2 (amended): for every string of characters below code point 256
    that does not end with a line feed, the validator answers true
    exactly when the whole string is [(DDD)wDDD-DDDD] with [D] one of the
    digits 0-9 and [w] a single white space character (code 9 to 13, 28
    to 32, 133 or 160), or [(DDD)DDD-DDDD], [DDD-DDD-DDDD] or
    [DDD-DDDD]; and the three sample numbers are answered as the
    specification lists them.  Strings are 8-bit here, so nothing is
    said of a string with a character above 255, where the pattern's
    digit and white space classes hold more. *)
Theorem validate_phone_number_whole_string :
  (forall s : string,
      Shapes.ends_with_lf (Shapes.chars s) = false ->
      (MyLibrary.validate_phone_number s = true <->
       Shapes.phone_shape Shapes.one_white (Shapes.chars s)))
  /\ MyLibrary.validate_phone_number "(123) 456-7890" = true
  /\ MyLibrary.validate_phone_number "123-456-7890" = true
  /\ MyLibrary.validate_phone_number "1234567890" = false.
Proof.
  split; [|repeat split; reflexivity].
  intros s Hlf. rewrite PhoneFacts.validate_phone_number_spec. split.
  - intros (p & Hp & [E|E]); [now rewrite E|].
    rewrite E, PhoneFacts.ends_with_lf_snoc in Hlf. discriminate.
  - intros Hp. eauto.
Qed.

Lemma validate_phone_number_whole_string_witness :
  MyLibrary.validate_phone_number "123-4567" = true <->
  Shapes.phone_shape Shapes.one_white (Shapes.chars "123-4567").
Proof.
  apply (proj1 validate_phone_number_whole_string "123-4567"). reflexivity.
Defined.

(** ** extract_emails *)

Module EmailFacts.
Import Re ReFacts MyLibrary Shapes Notions.

Lemma in_local_set c : in_set local_set c = local_char c.
Proof. destruct c as [[] [] [] [] [] [] [] []]; reflexivity. Qed.

Lemma in_domain_set c : in_set domain_set c = domain_char c.
Proof. destruct c as [[] [] [] [] [] [] [] []]; reflexivity. Qed.

Lemma in_tail_set c : in_set tail_set c = tail_char c.
Proof. destruct c as [[] [] [] [] [] [] [] []]; reflexivity. Qed.

Section Runs.
Variable n : nat.
Variable items : list set_item.


Lemma Matches_star w s' :
  Forall (member items) w -> Matches n (MAX_REPEAT 0 None (IN items)) (w ++ s') s'.
Proof.
  induction 1 as [|c w Hc Hw IH]; simpl; [apply M_stop|].
  apply M_more with (s1 := w ++ s'); [discriminate| |right; simpl; lia|auto].
  now constructor.
Qed.

Lemma Matches_star_inv s s' :
  Matches n (MAX_REPEAT 0 None (IN items)) s s' ->
  exists w, s = w ++ s' /\ Forall (member items) w.
Proof.
  intros H. remember (MAX_REPEAT 0 None (IN items)) as r eqn:Er.
  induction H; try discriminate; injection Er; intros; subst.
  - exists []. auto.
  - destruct (IHMatches2 eq_refl) as (w & -> & Hw).
    match goal with
    | H1 : Matches _ (IN _) _ _ |- _ => inversion H1; subst
    end.
    eexists (_ :: w). split; [reflexivity|]. constructor; auto.
Qed.

Lemma Matches_plus w s' :
  w <> [] -> Forall (member items) w -> Matches n (plus (IN items)) (w ++ s') s'.
Proof.
  intros Hn Hw. destruct Hw as [|c w Hc Hw]; [congruence|].
  apply M_more with (s1 := w ++ s'); [discriminate| |left; lia|].
  - now constructor.
  - now apply Matches_star.
Qed.

Lemma Matches_plus_inv s s' :
  Matches n (plus (IN items)) s s' ->
  exists w, s = w ++ s' /\ w <> [] /\ Forall (member items) w.
Proof.
  intros H. inversion H; subst.
  match goal with
  | H1 : Matches _ (IN _) _ _, H2 : Matches _ (MAX_REPEAT _ _ _) _ _ |- _ =>
      inversion H1; subst; apply Matches_star_inv in H2 as (w & -> & Hw)
  end.
  eexists (_ :: w). repeat split; [discriminate|]. constructor; auto.
Qed.


Lemma head_star body fuel :
  (forall s, body s = exec n (IN items) s) ->
  forall s, length s < fuel ->
    exists rest,
      head (max_repeat body fuel 0 None s) = Some rest /\ no_more items rest.
Proof.
  intros Hb. induction fuel as [|fuel IH]; intros s Hl; [lia|].
  simpl. rewrite Hb. destruct s as [|c s]; [exists []; simpl; auto|].
  simpl. destruct (in_set items c) eqn:Ec; [|exists (c :: s); simpl; auto].
  simpl. replace (length s <? S (length s)) with true
    by (symmetry; apply Nat.ltb_lt; lia).
  destruct (IH s) as (rest & Hh & Hr); [simpl in Hl; lia|].
  exists rest. split; [|exact Hr].
  destruct (max_repeat body fuel 0 None s); [discriminate|].
  exact Hh.
Qed.

Lemma head_plus s rest :
  head (exec n (plus (IN items)) s) = Some rest -> no_more items rest.
Proof.
  unfold plus. set (body := exec n (IN items)).
  change (exec n (MAX_REPEAT 1 None (IN items)) s)
    with (max_repeat body (S (length s)) 1 None s).
  cbn [max_repeat]. unfold body at 2.
  destruct s as [|c s]; [discriminate|].
  cbn [exec]. destruct (in_set items c) eqn:Ec; [|discriminate].
  cbn [flat_map Nat.ltb Nat.leb orb pred option_map].
  destruct (head_star body (length (c :: s)) (fun _ => eq_refl) s)
    as (r & Hh & Hr); [simpl; lia|].
  destruct (max_repeat body (length (c :: s)) 0 None s);
    [discriminate|].
  simpl in *. congruence.
Qed.

End Runs.

Lemma run_of_set items p w :
  (forall c, in_set items c = p c) ->
  w <> [] -> Forall (fun c => in_set items c = true) w -> run p w.
Proof.
  intros Hp Hn Hw. split; [exact Hn|].
  eapply List.Forall_impl; [|exact Hw]. intros c; cbv beta. now rewrite Hp.
Qed.

Lemma set_of_run items p w :
  (forall c, in_set items c = p c) ->
  run p w -> Forall (fun c => in_set items c = true) w.
Proof.
  intros Hp [_ Hw]. eapply List.Forall_impl; [|exact Hw].
  intros c; cbv beta. now rewrite Hp.
Qed.

Lemma email_pattern_shape n s s' :
  Matches n email_pattern s s' <-> exists e, s = e ++ s' /\ email_shape e.
Proof.
  unfold email_pattern. split.
  - intros H.
    repeat match goal with
      | H : Matches _ (plus _) _ _ |- _ =>
          apply Matches_plus_inv in H as (? & -> & ? & ?)
      | H : Matches _ (SEQ _ _) _ _ |- _ => inversion H; clear H; subst
      | H : Matches _ (LITERAL _) _ _ |- _ => inversion H; clear H; subst
      end.
    match goal with
    | |- exists e, (?l ++ "@" :: ?d ++ "." :: ?t ++ _)%char = _ /\ _ =>
        exists (l ++ "@" :: d ++ "." :: t)%char; split;
        [ repeat (rewrite <- ?app_assoc, <- ?app_comm_cons); reflexivity
        | exists l, d, t; split; [reflexivity|] ]
    end.
    repeat split; eauto using run_of_set, in_local_set, in_domain_set,
      in_tail_set; eapply run_of_set;
      eauto using in_local_set, in_domain_set, in_tail_set.
  - intros (e & -> & l & d & t & -> & Hl & Hd & Ht).
    repeat (rewrite <- ?app_assoc, <- ?app_comm_cons).
    eapply M_seq;
      [apply Matches_plus;
       [apply Hl | eapply set_of_run; [apply in_local_set | exact Hl]]|].
    eapply M_seq; [apply M_literal|].
    eapply M_seq;
      [apply Matches_plus;
       [apply Hd | eapply set_of_run; [apply in_domain_set | exact Hd]]|].
    eapply M_seq; [apply M_literal|].
    apply Matches_plus;
      [apply Ht | eapply set_of_run; [apply in_tail_set | exact Ht]].
Qed.

Lemma email_shape_length e : email_shape e -> 0 < length e.
Proof.
  intros (l & d & t & -> & _). rewrite List.length_app. simpl. lia.
Qed.

(** A run followed by a character outside its set ends at one place. *)
Lemma split_unique (p : ascii -> bool) :
  forall l l' c c' x x',
    Forall (fun a => p a = true) l -> Forall (fun a => p a = true) l' ->
    p c = false -> p c' = false ->
    l ++ c :: x = l' ++ c' :: x' -> l = l' /\ x = x'.
Proof.
  induction l as [|a l IH]; intros l' c c' x x' Hl Hl' Hc Hc' E.
  - destruct l' as [|a' l']; simpl in E.
    + injection E as _ E. auto.
    + injection E as -> _. inversion Hl'; subst. congruence.
  - destruct l' as [|a' l']; simpl in E.
    + injection E as -> _. inversion Hl; subst. congruence.
    + injection E as -> E. inversion Hl; inversion Hl'; subst.
      destruct (IH l' c c' x x') as [-> ->]; auto.
Qed.

Lemma prefix_run_le (p : ascii -> bool) :
  forall t t' rest r',
    Forall (fun a => p a = true) t' ->
    match rest with c :: _ => p c = false | [] => True end ->
    t ++ rest = t' ++ r' -> length t' <= length t.
Proof.
  induction t as [|a t IH]; intros t' rest r' Ht' Hr E.
  - destruct t' as [|a' t']; simpl; [lia|].
    simpl in E. subst rest. inversion Ht'; subst. congruence.
  - destruct t' as [|a' t']; simpl; [lia|].
    simpl in E. injection E as -> E. inversion Ht'; subst.
    apply IH in E; auto. lia.
Qed.

Lemma head_flat_map {A B} (f : A -> list B) l x :
  head (flat_map f l) = Some x -> exists a, In a l /\ head (f a) = Some x.
Proof.
  induction l as [|a l IH]; simpl; [discriminate|].
  destruct (f a) as [|b bs] eqn:E; simpl.
  - intros H. destruct (IH H) as (a' & ? & ?). eauto.
  - intros H. exists a. rewrite E. auto.
Qed.

Lemma exec_SEQ n r1 r2 s :
  exec n (SEQ r1 r2) s = flat_map (exec n r2) (exec n r1 s).
Proof. reflexivity. Qed.

Lemma head_In {A} (l : list A) x : head l = Some x -> In x l.
Proof. destruct l; simpl; [discriminate|]. intros [= ->]. now left. Qed.

(** The first outcome of the pattern is the longest address that
    starts at this position. *)
Lemma email_head_longest n s rest :
  head (exec n email_pattern s) = Some rest ->
  exists e, s = e ++ rest /\ email_shape e /\
    forall e' r', s = e' ++ r' -> email_shape e' -> length e' <= length e.
Proof.
  intros H.
  assert (Hstop : no_more tail_set rest).
  { unfold email_pattern in H.
    repeat (rewrite exec_SEQ in H; apply head_flat_map in H as (? & _ & H)).
    eapply head_plus; eauto. }
  apply head_In, exec_sound, email_pattern_shape in H as (e & -> & He).
  exists e. repeat split; auto.
  intros e' r' E (l' & d' & t' & -> & Hl' & Hd' & Ht').
  destruct He as (l & d & t & -> & Hl & Hd & Ht).
  repeat (rewrite <- ?app_assoc, <- ?app_comm_cons in E).
  apply (split_unique local_char) in E as [-> E];
    [|apply Hl|apply Hl'|reflexivity|reflexivity].
  apply (split_unique domain_char) in E as [-> E];
    [|apply Hd|apply Hd'|reflexivity|reflexivity].
  apply (prefix_run_le tail_char) in E; [|apply Ht'|].
  - rewrite !List.length_app; simpl; rewrite !List.length_app; simpl. lia.
  - destruct rest; [exact I|]. simpl in Hstop. now rewrite <- in_tail_set.
Qed.

Lemma email_no_outcome n s :
  exec n email_pattern s = [] -> ~ has_email_prefix s.
Proof.
  intros E (e & r & -> & He).
  assert (H : In r (exec n email_pattern (e ++ r))).
  { apply exec_complete, email_pattern_shape. eauto. }
  rewrite E in H. destruct H.
Qed.

Lemma email_outcome_shorter n s s' :
  In s' (exec n email_pattern s) -> (length s' <? length s) = true.
Proof.
  intros H. apply exec_sound, email_pattern_shape in H as (e & -> & He).
  apply email_shape_length in He. apply Nat.ltb_lt.
  rewrite List.length_app. lia.
Qed.

Lemma filter_all {A} (f : A -> bool) l :
  (forall x, In x l -> f x = true) -> List.filter f l = l.
Proof.
  induction l as [|a l IH]; simpl; intros H; [reflexivity|].
  rewrite (H a) by auto. f_equal. auto.
Qed.

Lemma search_unfold n r must_advance s :
  search n r must_advance s =
  match (if must_advance
         then List.filter (fun s' => length s' <? length s) (exec n r s)
         else exec n r s) with
  | s' :: _ => Some (s, s')
  | [] => match s with
          | [] => None
          | _ :: t => search n r false t
          end
  end.
Proof. destruct s; reflexivity. Qed.


Lemma search_email n :
  forall s must_advance,
    match search n email_pattern must_advance s with
    | None => forall pre suf, s = pre ++ suf -> ~ has_email_prefix suf
    | Some (start, rest) =>
        exists gap e,
          s = gap ++ start /\ start = e ++ rest /\ email_shape e /\
          leftmost gap start /\
          (forall e' r', start = e' ++ r' -> email_shape e' ->
                         length e' <= length e)
    end.
Proof.
  induction s as [|c s IH]; intros must_advance.
  - rewrite search_unfold.
    rewrite (filter_all _ _ (email_outcome_shorter n [])).
    replace (if must_advance then exec n email_pattern []
             else exec n email_pattern []) with (exec n email_pattern [])
      by (destruct must_advance; reflexivity).
    destruct (exec n email_pattern []) as [|s' o] eqn:E.
    + intros pre suf Hs. symmetry in Hs. apply app_eq_nil in Hs as [_ ->].
      now apply (email_no_outcome n).
    + assert (H : head (exec n email_pattern []) = Some s') by now rewrite E.
      apply email_head_longest in H as (e & E' & He & Hlong).
      exists [], e. repeat split; auto.
      intros pre suf Hs. symmetry in Hs. apply app_eq_nil in Hs as [_ ->].
      congruence.
  - rewrite search_unfold.
    rewrite (filter_all _ _ (email_outcome_shorter n (c :: s))).
    replace (if must_advance then exec n email_pattern (c :: s)
             else exec n email_pattern (c :: s))
      with (exec n email_pattern (c :: s))
      by (destruct must_advance; reflexivity).
    destruct (exec n email_pattern (c :: s)) as [|s' o] eqn:E.
    + apply email_no_outcome in E. specialize (IH false).
      destruct (search n email_pattern false s) as [[start rest]|].
      * destruct IH as (gap & e & -> & -> & He & Hleft & Hlong).
        exists (c :: gap), e. repeat split; auto.
        intros pre suf Hs Hn. destruct pre as [|c' pre]; simpl in Hs.
        -- subst suf. exact E.
        -- injection Hs as -> Hs. now apply (Hleft pre suf).
      * intros pre suf Hs. destruct pre as [|c' pre]; simpl in Hs.
        -- now subst suf.
        -- injection Hs as -> Hs. now apply (IH pre suf).
    + assert (H : head (exec n email_pattern (c :: s)) = Some s')
        by now rewrite E.
      apply email_head_longest in H as (e & E' & He & Hlong).
      exists [], e. repeat split; auto.
      intros pre suf Hs. symmetry in Hs. apply app_eq_nil in Hs as [_ ->].
      congruence.
Qed.

Lemma findall_loop_email n :
  forall fuel s must_advance,
    length s < fuel ->
    extraction s (findall_loop fuel n email_pattern must_advance s).
Proof.
  induction fuel as [|fuel IH]; intros s must_advance Hl; [lia|].
  cbn [findall_loop]. pose proof (search_email n s must_advance) as Hs.
  destruct (search n email_pattern must_advance s) as [[start rest]|].
  - destruct Hs as (gap & e & -> & -> & He & Hleft & Hlong).
    replace (firstn (length (e ++ rest) - length rest) (e ++ rest)) with e.
    + apply extraction_next; auto. apply IH.
      apply email_shape_length in He.
      rewrite !List.length_app in Hl. lia.
    + rewrite List.length_app, Nat.add_sub.
      rewrite firstn_app, Nat.sub_diag, firstn_all. simpl.
      now rewrite app_nil_r.
  - now apply extraction_done.
Qed.

Lemma findall_email s : extraction s (findall email_pattern s).
Proof. apply findall_loop_email. lia. Qed.

Lemma chars_str l : chars (string_of_list_ascii l) = l.
Proof. apply list_ascii_of_string_of_list_ascii. Qed.

End EmailFacts.

(** C3 (as stated, refuted): an address whose domain is a single group
    without a dot has the shape the specification describes, and is not
    extracted. *)
Lemma extract_emails_needs_dot :
  MyLibrary.extract_emails "user@localhost" = [] /\
  Shapes.claimed_email_shape (Shapes.chars "user@localhost").
Proof.
  split; [reflexivity|].
  exists (Shapes.chars "user"), [Shapes.chars "localhost"].
  split; [reflexivity|]. split; [|split; [discriminate|]].
  - split; [discriminate|]. repeat constructor.
  - repeat constructor; discriminate.
Qed.

(** C3 (amended): an address is one or more characters of
    {letters, digits, [_], [.], [+], [-]}, then [@], then one or more of
    {letters, digits, [-]}, then a dot, which is required, then one or
    more of {letters, digits, [-], [.]}.  [extract_emails] returns, left
    to right, the non-overlapping addresses of the text: each starts at
    the first position after the previous one where an address starts and
    is the longest address starting there; the result is empty when the
    text contains none; and the sample text gives the sample address. *)
Theorem extract_emails_leftmost_longest :
  (forall text : string,
      Shapes.extraction (Shapes.chars text)
        (map Shapes.chars (MyLibrary.extract_emails text)))
  /\ MyLibrary.extract_emails "Contact me at mol7@kent.ac.uk"
     = ["mol7@kent.ac.uk"%string].
Proof.
  split; [|reflexivity].
  intros text. unfold MyLibrary.extract_emails.
  rewrite map_map.
  rewrite (map_ext _ (fun x => x) EmailFacts.chars_str), map_id.
  apply EmailFacts.findall_email.
Qed.

(** ** The record store: what the reader makes of the writer's output *)

Module CsvFacts.
Import Csv CsvReading.

#[local] Opaque field_limit.


Lemma plain_inv c :
  is_newline c = false -> Ascii.eqb c LF = false /\ Ascii.eqb c CR = false.
Proof. unfold is_newline. apply orb_false_iff. Qed.

Lemma lines_from_plain x :
  forall cur s, Forall plain x ->
    lines_from cur (x ++ s) = lines_from (cur ++ x) s.
Proof.
  induction x as [|c x IH]; intros cur s Hx; simpl.
  - now rewrite app_nil_r.
  - inversion Hx as [|? ? Hc Hx']; subst.
    apply plain_inv in Hc as [-> ->]. rewrite IH by assumption.
    now rewrite <- app_assoc.
Qed.

Lemma feed_app x : forall p y,
  feed p (x ++ y) = (p' <- feed p x ;; feed p' y).
Proof.
  induction x as [|c x IH]; intros p y; simpl; [reflexivity|].
  destruct (parse_process_char p (Some c)); simpl; auto.
Qed.


Lemma consumes_nil p : consumes p [] p.
Proof. intros p0 cur s H. exists p0, cur. auto. Qed.

Lemma consumes_app p x p1 y p2 :
  consumes p x p1 -> consumes p1 y p2 -> consumes p (x ++ y) p2.
Proof.
  intros H1 H2 p0 cur s H. rewrite <- app_assoc.
  destruct (H1 p0 cur (y ++ s) H) as (p0' & cur' & H' & ->).
  apply H2. exact H'.
Qed.

Lemma consumes_plain p x p' :
  Forall plain x -> feed p x = Ok p' -> consumes p x p'.
Proof.
  intros Hx Hf p0 cur s H. exists p0, (cur ++ x). split.
  - rewrite feed_app, H. exact Hf.
  - now rewrite lines_from_plain.
Qed.

Lemma add_char_ok p c :
  length (field p) < field_limit ->
  parse_add_char p c
  = Ok {| state := state p; fields := fields p; field := field p ++ [c] |}.
Proof.
  intros H. unfold parse_add_char.
  destruct (Nat.leb_spec field_limit (length (field p))); [lia|reflexivity].
Qed.


Lemma in_quoted_char p c :
  state p = IN_QUOTED_FIELD -> Ascii.eqb c quote = false ->
  length (field p) < field_limit ->
  parse_process_char p (Some c) = Ok (extend p [c] IN_QUOTED_FIELD).
Proof.
  intros Hs Hc Hl. unfold parse_process_char. rewrite Hs, Hc.
  rewrite add_char_ok by assumption. unfold extend. now rewrite Hs.
Qed.

Lemma in_quoted_quote p :
  state p = IN_QUOTED_FIELD -> length (field p) < field_limit ->
  feed p [quote; quote] = Ok (extend p [quote] IN_QUOTED_FIELD).
Proof.
  intros Hs Hl. cbn [feed]. unfold parse_process_char at 1.
  rewrite Hs, Ascii.eqb_refl. cbn [bind].
  unfold parse_process_char. cbn [state set_state].
  rewrite Ascii.eqb_refl, add_char_ok by assumption. reflexivity.
Qed.

Lemma extend_app p f g s s' :
  extend (extend p f s) g s' = extend p (f ++ g) s'.
Proof. unfold extend; simpl. now rewrite <- app_assoc. Qed.

Lemma feed_in_quoted x :
  forall p,
    state p = IN_QUOTED_FIELD ->
    Forall (fun c => Ascii.eqb c quote = false) x ->
    length (field p) + length x <= field_limit ->
    feed p x = Ok (extend p x IN_QUOTED_FIELD).
Proof.
  induction x as [|c x IH]; intros p Hs Hx Hl.
  - simpl. unfold extend. rewrite app_nil_r, <- Hs. now destruct p.
  - inversion Hx; subst. cbn [feed].
    rewrite in_quoted_char by (simpl in Hl; auto; lia). cbn [bind].
    rewrite IH; auto.
    + now rewrite extend_app.
    + simpl in *. rewrite List.length_app. simpl. lia.
Qed.

(** A line that ends inside a quoted field does not end the record. *)
Lemma quoted_line_break p0 cur p brk rest :
  feed p0 cur = Ok p ->
  state p = IN_QUOTED_FIELD ->
  Forall (fun c => Ascii.eqb c quote = false) brk ->
  length (field p) + length brk <= field_limit ->
  reader_loop p0 ((cur ++ brk) :: rest)
  = reader_loop (extend p brk IN_QUOTED_FIELD) rest.
Proof.
  intros Hf Hs Hb Hl. cbn [reader_loop].
  rewrite feed_app, Hf. cbn [bind]. rewrite feed_in_quoted by assumption.
  reflexivity.
Qed.

Lemma lines_from_LF cur x :
  lines_from cur (LF :: x) = (cur ++ [LF]) :: lines_from [] x.
Proof. reflexivity. Qed.

Lemma lines_from_CRLF cur x :
  lines_from cur (CR :: LF :: x) = (cur ++ [CR; LF]) :: lines_from [] x.
Proof. reflexivity. Qed.

Lemma lines_from_CR cur x :
  match x with h :: _ => Ascii.eqb h LF = false | [] => True end ->
  lines_from cur (CR :: x) = (cur ++ [CR]) :: lines_from [] x.
Proof.
  intros H. cbn [lines_from].
  change (Ascii.eqb CR LF) with false. change (Ascii.eqb CR CR) with true.
  cbv iota. destruct x as [|h x]; [reflexivity|]. now rewrite H.
Qed.

Lemma double_quotes_cons c f :
  double_quotes (c :: f)
  = (if Ascii.eqb c quote then [quote; quote] else [c]) ++ double_quotes f.
Proof. reflexivity. Qed.

Lemma consumes_quoted n :
  forall f p,
    length f <= n ->
    state p = IN_QUOTED_FIELD ->
    length (field p) + length f <= field_limit ->
    consumes p (double_quotes f ++ [quote])
      (extend p f QUOTE_IN_QUOTED_FIELD).
Proof.
  assert (Hbase : forall p, state p = IN_QUOTED_FIELD ->
            consumes p [quote] (extend p [] QUOTE_IN_QUOTED_FIELD)).
  { intros p Hs. apply consumes_plain; [repeat constructor|].
    cbn [feed]. unfold parse_process_char. rewrite Hs, Ascii.eqb_refl.
    cbn [bind]. unfold extend. now rewrite app_nil_r. }
  induction n as [|n IH]; intros f p Hn Hs Hl.
  { destruct f; [|simpl in Hn; lia]. now apply Hbase. }
  destruct f as [|c f]; [now apply Hbase|].
  simpl in Hn, Hl. rewrite double_quotes_cons.
  destruct (Ascii.eqb c quote) eqn:Eq.
  - apply Ascii.eqb_eq in Eq. subst c. rewrite <- app_assoc.
    eapply consumes_app.
    + apply consumes_plain; [repeat constructor|].
      apply in_quoted_quote; [assumption|lia].
    + change (quote :: f) with ([quote] ++ f).
      rewrite <- (extend_app p [quote] f IN_QUOTED_FIELD).
      apply IH; [lia|reflexivity|]. simpl. rewrite List.length_app. simpl. lia.
  - assert (Hstep : forall brk f',
              c :: f = brk ++ f' -> brk <> [] ->
              Forall (fun c => Ascii.eqb c quote = false) brk ->
              forall p0 cur s L,
                feed p0 cur = Ok p ->
                L = lines_from [] ((double_quotes f' ++ [quote]) ++ s) ->
                exists p0' cur',
                  feed p0' cur'
                  = Ok (extend p (c :: f) QUOTE_IN_QUOTED_FIELD) /\
                  reader_loop p0 ((cur ++ brk) :: L)
                  = reader_loop p0' (lines_from cur' s)).
    { intros brk f' E Hne Hb p0 cur s L Hf ->.
      assert (Hlen : length (c :: f) = length brk + length f')
        by (rewrite E, List.length_app; reflexivity).
      simpl in Hlen.
      rewrite (quoted_line_break p0 cur p) by (auto; lia).
      rewrite E, <- (extend_app p brk f' IN_QUOTED_FIELD).
      apply IH;
        [destruct brk; [congruence|simpl in Hlen; lia]|reflexivity|
        |reflexivity].
      simpl. rewrite List.length_app. lia. }
    destruct (Ascii.eqb c LF) eqn:El.
    + apply Ascii.eqb_eq in El. subst c. intros p0 cur s Hf.
      cbn [app]. rewrite lines_from_LF.
      apply (Hstep [LF] f);
first [reflexivity | discriminate | assumption | repeat constructor].
    + destruct (Ascii.eqb c CR) eqn:Ec.
      * apply Ascii.eqb_eq in Ec. subst c. intros p0 cur s Hf. cbn [app].
        destruct f as [|c2 f'].
        -- rewrite lines_from_CR by reflexivity.
           apply (Hstep [CR] []);
first [reflexivity | discriminate | assumption | repeat constructor].
        -- destruct (Ascii.eqb c2 LF) eqn:E2.
           ++ apply Ascii.eqb_eq in E2. subst c2.
              rewrite double_quotes_cons. change (Ascii.eqb LF quote) with false.
              cbn [app]. rewrite lines_from_CRLF.
              apply (Hstep [CR; LF] f');
first [reflexivity | discriminate | assumption | repeat constructor].
           ++ rewrite lines_from_CR.
              ** apply (Hstep [CR] (c2 :: f'));
                   first [reflexivity | discriminate | assumption
                         | repeat constructor].
              ** rewrite double_quotes_cons.
                 destruct (Ascii.eqb c2 quote); simpl; auto.
      * rewrite <- app_assoc. eapply consumes_app.
        -- apply consumes_plain.
           ++ repeat constructor. unfold plain, is_newline. now rewrite El, Ec.
           ++ cbn [feed]. rewrite in_quoted_char by (auto; lia). reflexivity.
        -- change (c :: f) with ([c] ++ f).
           rewrite <- (extend_app p [c] f IN_QUOTED_FIELD).
           apply IH; [lia|reflexivity|].
           simpl. rewrite List.length_app. simpl. lia.
Qed.

(** *** Fields, records, files *)



Lemma special_inv c :
  special c = false ->
  Ascii.eqb c comma = false /\ Ascii.eqb c quote = false /\
  is_newline c = false.
Proof.
  unfold special. intros H.
  apply orb_false_iff in H as [H H3]. apply orb_false_iff in H as [H1 H2].
  auto.
Qed.

Lemma in_field_char p c :
  state p = IN_FIELD -> special c = false ->
  length (field p) < field_limit ->
  parse_process_char p (Some c) = Ok (extend p [c] IN_FIELD).
Proof.
  intros Hs Hc Hl. apply special_inv in Hc as (Hc1 & Hc2 & Hc3).
  unfold parse_process_char. rewrite Hs, Hc3, Hc1.
  rewrite add_char_ok by assumption. unfold extend. now rewrite Hs.
Qed.

Lemma feed_in_field x :
  forall p,
    state p = IN_FIELD ->
    Forall (fun c => special c = false) x ->
    length (field p) + length x <= field_limit ->
    feed p x = Ok (extend p x IN_FIELD).
Proof.
  induction x as [|c x IH]; intros p Hs Hx Hl.
  - simpl. unfold extend. rewrite app_nil_r, <- Hs. now destruct p.
  - inversion Hx; subst. cbn [feed].
    rewrite in_field_char by (simpl in Hl; auto; lia). cbn [bind].
    rewrite IH; auto.
    + now rewrite extend_app.
    + simpl in *. rewrite List.length_app. simpl. lia.
Qed.

Lemma first_char p c :
  ready p -> special c = false -> 0 < field_limit ->
  parse_process_char p (Some c) = Ok (extend p [c] IN_FIELD).
Proof.
  intros [Hs Hf] Hc Hl. apply special_inv in Hc as (Hc1 & Hc2 & Hc3).
  unfold parse_process_char, start_field.
  destruct Hs as [-> | ->]; rewrite Hc3, Hc2, Hc1;
    rewrite add_char_ok by (cbn [field set_state]; rewrite Hf; exact Hl);
    reflexivity.
Qed.

Lemma open_quote p :
  ready p ->
  parse_process_char p (Some quote) = Ok (set_state IN_QUOTED_FIELD p).
Proof.
  intros [[Hs|Hs] _]; unfold parse_process_char; rewrite Hs; reflexivity.
Qed.

Lemma forallb_existsb_special f :
  needs_quotes f = false -> Forall (fun c => special c = false) f.
Proof.
  unfold needs_quotes. induction f as [|c f IH]; simpl; [constructor|].
  intros H. apply orb_false_iff in H as [H1 H2]. constructor; auto.
Qed.

Lemma consumes_field f p :
  ready p -> length f <= field_limit ->
  exists p',
    consumes p (join_append_data f) p' /\
    fields p' = fields p /\ field p' = f /\
    (done_state (state p') \/ (state p' = state p /\ f = [])).
Proof.
  intros Hr Hl. unfold join_append_data.
  destruct (needs_quotes f) eqn:Eq.
  - exists (extend (set_state IN_QUOTED_FIELD p) f QUOTE_IN_QUOTED_FIELD).
    destruct Hr as [Hs Hf]. repeat split.
    + change (quote :: double_quotes f ++ [quote])
        with ([quote] ++ double_quotes f ++ [quote]).
      eapply consumes_app.
      * apply consumes_plain; [repeat constructor|]. cbn [feed].
        rewrite open_quote by (split; assumption). reflexivity.
      * apply (consumes_quoted (length f)); [lia|reflexivity|].
        cbn [field set_state]. rewrite Hf. simpl. lia.
    + cbn [field extend set_state]. now rewrite Hf.
    + left. right. right. reflexivity.
  - apply forallb_existsb_special in Eq. destruct f as [|c f].
    + exists p. repeat split; [apply consumes_nil|apply Hr|auto].
    + inversion Eq; subst. simpl in Hl.
      exists (extend (extend p [c] IN_FIELD) f IN_FIELD). repeat split.
      * apply consumes_plain.
        -- eapply List.Forall_impl; [|exact Eq]. intros a Ha.
           now apply special_inv in Ha.
        -- cbn [feed]. rewrite first_char by (auto; lia). cbn [bind].
           apply feed_in_field; [reflexivity|assumption|].
           cbn [field extend]. destruct Hr as [_ ->]. simpl. lia.
      * cbn [field extend]. destruct Hr as [_ ->]. reflexivity.
      * left. right. left. reflexivity.
Qed.

Lemma comma_step p :
  done_state (state p) \/ state p = START_RECORD ->
  parse_process_char p (Some comma)
  = Ok {| state := START_FIELD; fields := fields p ++ [field p]; field := [] |}.
Proof.
  destruct p as [st fs fd]. cbn [state fields field].
  intros [[Hs|[Hs|Hs]]|Hs]; subst st; reflexivity.
Qed.

Lemma consumes_row row :
  forall p,
    row <> [] -> ready p ->
    Forall (fun f => length f <= field_limit) row ->
    exists p',
      consumes p (join_fields row) p' /\
      fields p' ++ [field p'] = fields p ++ row /\
      (done_state (state p') \/ (state p' = state p /\ row = [[]])).
Proof.
  induction row as [|f row IH]; intros p Hne Hr Hl; [congruence|].
  inversion Hl as [|? ? Hf Hrow]; subst.
  destruct (consumes_field f p Hr Hf) as (p1 & Hc1 & Hfs1 & Hfd1 & Hs1).
  destruct row as [|g row].
  - exists p1. cbn [join_fields]. repeat split; auto.
    + now rewrite Hfs1, Hfd1.
    + destruct Hs1 as [?|[? ->]]; auto.
  - set (p2 := {| state := START_FIELD; fields := fields p1 ++ [field p1];
                  field := [] |}).
    destruct (IH p2) as (p3 & Hc3 & Hfs3 & Hs3);
      [discriminate|split; [right|]; reflexivity|assumption|].
    exists p3. repeat split.
    + change (join_fields (f :: g :: row))
        with (join_append_data f ++ [comma] ++ join_fields (g :: row)).
      eapply consumes_app; [exact Hc1|].
      eapply consumes_app; [|exact Hc3].
      apply consumes_plain; [repeat constructor|]. cbn [feed].
      rewrite comma_step; [reflexivity|].
      destruct Hs1 as [?|[-> _]]; auto.
      destruct Hr as [[->| ->] _]; auto. left. left. reflexivity.
    + rewrite Hfs3. cbn [fields p2]. rewrite Hfs1, Hfd1, <- app_assoc.
      reflexivity.
    + left. destruct Hs3 as [?|[-> _]]; auto. left. reflexivity.
Qed.

Lemma row_end p0 cur p s :
  feed p0 cur = Ok p -> done_state (state p) ->
  reader_loop p0 (lines_from cur (CR :: LF :: s))
  = (rows <- reader_loop parse_reset (lines_from [] s) ;;
     Ok ((fields p ++ [field p]) :: rows)).
Proof.
  intros Hf Hs. rewrite lines_from_CRLF. cbn [reader_loop].
  rewrite feed_app, Hf. cbn [bind]. destruct p as [st fs fd].
  cbn [state fields field] in *.
  destruct Hs as [Hs|[Hs|Hs]]; subst st; reflexivity.
Qed.

Lemma join_fields_nil row : join_fields row = [] -> row = [] \/ row = [[]].
Proof.
  destruct row as [|f [|g row]]; cbn [join_fields]; auto.
  - unfold join_append_data. destruct (needs_quotes f); [discriminate|].
    intros ->. auto.
  - intros H. apply app_eq_nil in H as [_ H]. discriminate.
Qed.

Lemma reader_writerow row s :
  Forall (fun f => length f <= field_limit) row ->
  reader_loop parse_reset (lines_from [] (writerow row ++ s))
  = (rows <- reader_loop parse_reset (lines_from [] s) ;; Ok (row :: rows)).
Proof.
  intros Hl. unfold writerow. rewrite <- app_assoc.
  destruct row as [|f row]; [reflexivity|].
  destruct (join_fields (f :: row)) as [|c rec] eqn:Ej.
  - apply join_fields_nil in Ej as [Ej|Ej]; [discriminate|].
    injection Ej as -> ->. reflexivity.
  - rewrite <- Ej. cbn [length Nat.ltb Nat.leb andb].
    replace (length (join_fields (f :: row)) =? 0) with false
      by (rewrite Ej; reflexivity).
    destruct (consumes_row (f :: row) parse_reset)
      as (p' & Hc & Hfs & Hs); [discriminate|split; auto|assumption|].
    destruct (Hc parse_reset [] ([CR; LF] ++ s) eq_refl)
      as (p0' & cur' & Hf' & ->).
    destruct Hs as [Hs|[_ E]].
    + cbn [app]. rewrite (row_end p0' cur' p') by assumption.
      now rewrite Hfs.
    + rewrite E in Ej. discriminate.
Qed.

(** Reading back what the writer wrote gives the rows that were
    written, as long as no field is longer than the reader accepts. *)
Lemma reader_writerows rows :
  Forall (Forall (fun f => length f <= field_limit)) rows ->
  reader (lines (writerows rows)) = Ok rows.
Proof.
  unfold reader, lines, writerows.
  induction rows as [|row rows IH]; intros Hl; [reflexivity|].
  inversion Hl; subst. cbn [flat_map].
  rewrite reader_writerow by assumption. now rewrite IH.
Qed.

End CsvFacts.

(** ** The record store *)

Module StoreFacts.

Lemma chars_of_str l : chars_of (string_of_list_ascii l) = l.
Proof. apply list_ascii_of_string_of_list_ascii. Qed.

Lemma str_chars_of s : string_of_list_ascii (chars_of s) = s.
Proof. apply string_of_list_ascii_of_string. Qed.

Lemma length_chars_of s : length (chars_of s) = String.length s.
Proof. induction s; simpl; auto. Qed.

Lemma field_limit_pos : 0 < Csv.field_limit.
Proof. unfold Csv.field_limit. lia. Qed.

Lemma read_after_write self rows w :
  CSVProcessor.read_csv self (snd (CSVProcessor.write_csv self rows w))
  = (rows' <- Csv.reader
                (Csv.lines (Csv.writerows (map (map chars_of) rows))) ;;
     Ok (map (map string_of_list_ascii) rows'),
     record_open (filename self) ModeRead
       (snd (CSVProcessor.write_csv self rows w))).
Proof.
  unfold CSVProcessor.read_csv, CSVProcessor.write_csv, write_text.
  cbn [snd files]. rewrite lookup_insert_eq. now rewrite chars_of_str.
Qed.

Lemma write_json_eq self data w :
  JSONProcessor.write_json self data w
  = (match snd (Json.dump data) with
     | Some e => Raise e
     | None => Ok tt
     end,
     write_text (filename self)
       (string_of_list_ascii (fst (Json.dump data))) w).
Proof.
  unfold JSONProcessor.write_json. now destruct (Json.dump data).
Qed.

End StoreFacts.

Module FieldLimit.
Import Csv CsvReading CsvFacts.

(** One character more than the limit in a field, and the reader
    raises. *)
Lemma reader_over_limit x c :
  Forall (fun a => special a = false) x ->
  special c = false ->
  length x = field_limit ->
  reader (lines (writerows [[x ++ [c]]]))
  = Raise (CsvError "field larger than field limit (131072)").
Proof.
  intros Hx Hc Hlen.
  assert (Hq : needs_quotes (x ++ [c]) = false).
  { unfold needs_quotes. rewrite existsb_app. apply orb_false_iff. split.
    - apply not_true_iff_false. intros H.
      apply List.existsb_exists in H as (a & Ha & Hs).
      rewrite List.Forall_forall in Hx. rewrite (Hx a Ha) in Hs. discriminate.
    - cbn [existsb]. now rewrite Hc. }
  assert (Hne : (length (x ++ [c]) =? 0) = false).
  { apply Nat.eqb_neq. rewrite List.length_app. cbn [length]. lia. }
  unfold writerows, writerow. cbn [flat_map join_fields].
  unfold join_append_data. rewrite Hq, Hne, andb_false_r, app_nil_r.
  unfold lines. rewrite <- app_assoc.
  rewrite lines_from_plain
    by (eapply List.Forall_impl; [|exact Hx]; intros a Ha;
        now apply special_inv in Ha).
  rewrite lines_from_plain
    by (constructor; [now apply special_inv in Hc|constructor]).
  rewrite lines_from_CRLF. unfold reader. cbn [reader_loop app].
  rewrite !feed_app.
  assert (Hfeed : feed parse_reset x = Ok (extend parse_reset x IN_FIELD)).
  { destruct x as [|a x'].
    - pose proof StoreFacts.field_limit_pos. cbn [length] in Hlen. lia.
    - inversion Hx; subst. cbn [feed].
      rewrite first_char;
        [|split; auto|assumption|apply StoreFacts.field_limit_pos].
      cbn [bind]. rewrite feed_in_field; [|reflexivity|assumption|].
      + now rewrite extend_app.
      + cbn [length extend field parse_reset app] in *. lia. }
  rewrite Hfeed. cbn [bind feed].
  apply special_inv in Hc as (Hc1 & Hc2 & Hc3).
  unfold parse_process_char at 1. cbn [state extend]. rewrite Hc3, Hc1.
  unfold parse_add_char. cbn [field extend parse_reset app].
  rewrite Hlen, Nat.leb_refl. reflexivity.
Qed.

End FieldLimit.

(** C7 (as stated, refuted): a row with one field of 131073 characters
    is written, and reading it back raises the reader's field limit
    error. *)
Lemma csv_round_trip_fails_over_field_limit :
  fst (CSVProcessor.read_csv {| filename := "contacts.csv" |}
         (snd (CSVProcessor.write_csv {| filename := "contacts.csv" |}
                 [[string_of_list_ascii
                     (repeat "a"%char Csv.field_limit ++ ["a"%char])]]
                 {| files := ∅; opened := [] |})))
  = Raise (CsvError "field larger than field limit (131072)").
Proof.
  rewrite StoreFacts.read_after_write. cbn [fst map].
  rewrite StoreFacts.chars_of_str.
  rewrite FieldLimit.reader_over_limit; [reflexivity| |reflexivity|].
  - apply List.Forall_forall. intros c Hc. apply List.repeat_spec in Hc.
    subst c. reflexivity.
  - apply List.repeat_length.
Qed.

(** C7 (amended): for every sequence of rows of text fields in which no
    field is longer than 131072 characters, writing the rows and reading
    the same file back returns the rows, field for field and in order. *)
Theorem csv_round_trip (self : FileProcessor) (rows : list (list string))
    (w : world) :
  Forall (Forall (fun f => String.length f <= Csv.field_limit)) rows ->
  fst (CSVProcessor.read_csv self
         (snd (CSVProcessor.write_csv self rows w)))
  = Ok rows.
Proof.
  intros Hl. rewrite StoreFacts.read_after_write. cbn [fst].
  rewrite CsvFacts.reader_writerows.
  - cbn [bind]. f_equal. rewrite map_map.
    rewrite <- (map_id rows) at 2. apply map_ext. intros row.
    rewrite map_map. rewrite <- (map_id row) at 2. apply map_ext.
    apply StoreFacts.str_chars_of.
  - apply List.Forall_map. eapply List.Forall_impl; [|exact Hl].
    intros row Hrow. apply List.Forall_map.
    eapply List.Forall_impl; [|exact Hrow].
    intros f Hf. cbv beta. now rewrite StoreFacts.length_chars_of.
Qed.

Lemma csv_round_trip_witness :
  fst (CSVProcessor.read_csv {| filename := "contacts.csv" |}
         (snd (CSVProcessor.write_csv {| filename := "contacts.csv" |}
                 [["Mol7"; "Mol7@kent.ac.uk"; "(123) 456-7890"]%string; []]
                 {| files := ∅; opened := [] |})))
  = Ok [["Mol7"; "Mol7@kent.ac.uk"; "(123) 456-7890"]%string; []].
Proof.
  apply csv_round_trip.
  repeat (apply List.Forall_cons || apply List.Forall_nil);
    unfold Csv.field_limit; cbn [String.length]; lia.
Defined.

(** ** The contact manager *)

Module ManagerFacts.
Import ContactManager.

Lemma add_contact_cases self name email phone w :
  add_contact self name email phone w
  = match MyLibrary.extract_emails email with
    | [] => (Raise InvalidEmail, self, w)
    | _ :: _ =>
        if MyLibrary.validate_phone_number phone
        then (Ok tt,
              with_contacts self (contacts self ++ [[name; email; phone]]),
              w)
        else (Raise InvalidPhone, self, w)
    end.
Proof.
  unfold add_contact. destruct (MyLibrary.extract_emails email); auto.
  destruct (MyLibrary.validate_phone_number phone); reflexivity.
Qed.

(** Whatever the call, the collection only grows, and only by contacts
    that passed the checks. *)
Lemma run_op_contacts o self w :
  exists added,
    contacts (snd (fst (run_op o self w))) = contacts self ++ added /\
    Forall valid_contact added.
Proof.
  destruct o as [name email phone| |key value]; cbn [run_op].
  - rewrite add_contact_cases.
    destruct (MyLibrary.extract_emails email) as [|e es] eqn:Ee;
      [exists []; rewrite app_nil_r; auto|].
    destruct (MyLibrary.validate_phone_number phone) eqn:Ep;
      [|exists []; rewrite app_nil_r; auto].
    exists [[name; email; phone]]. split; [reflexivity|].
    constructor; [|constructor]. exists name, email, phone.
    repeat split; auto. rewrite Ee. discriminate.
  - exists []. rewrite app_nil_r. auto.
  - exists []. rewrite app_nil_r. unfold save_metadata.
    destruct (metadata self); auto.
    rewrite StoreFacts.write_json_eq. auto.
Qed.

Lemma run_ops_contacts ops :
  forall self w,
  exists added,
    contacts (fst (run_ops ops self w)) = contacts self ++ added /\
    Forall valid_contact added.
Proof.
  induction ops as [|o ops IH]; intros self w; cbn [run_ops].
  - exists []. rewrite app_nil_r. auto.
  - destruct (run_op_contacts o self w) as (a1 & E1 & H1).
    destruct (run_op o self w) as [[r self'] w']. cbn [fst snd] in E1.
    destruct (IH self' w') as (a2 & E2 & H2).
    exists (a1 ++ a2). rewrite E2, E1, <- app_assoc. split; auto.
    apply Forall_app. auto.
Qed.

Lemma save_metadata_mapping self d key value w :
  metadata self = Json.JObject d ->
  save_metadata self key value w
  = (match snd (Json.dump (Json.JObject (Json.dict_set d key value))) with
     | Some e => Raise e
     | None => Ok tt
     end,
     with_metadata self (Json.JObject (Json.dict_set d key value)),
     write_text (filename (json_processor self))
       (string_of_list_ascii
          (fst (Json.dump (Json.JObject (Json.dict_set d key value))))) w).
Proof.
  intros Hm. unfold save_metadata. rewrite Hm.
  now rewrite StoreFacts.write_json_eq.
Qed.

End ManagerFacts.

(** C4 (as stated, refuted): construction loads the rows of the file as
    they are; a row that passes neither check is in the collection. *)
Lemma init_loads_without_validation :
  let w := {| files := {[ "contacts.csv"%string :=
                            ("Bob,nope,000" ++ String CR (String LF ""))%string ]};
              opened := [] |} in
  exists m w',
    ContactManager.init "contacts.csv" "metadata.json" w = (Ok m, w') /\
    ContactManager.contacts m = [["Bob"; "nope"; "000"]%string] /\
    ~ ContactManager.valid_contact ["Bob"; "nope"; "000"]%string.
Proof.
  intros w. eexists _, _. split; [vm_compute; reflexivity|].
  split; [reflexivity|].
  intros (name & email & phone & E & He & _). injection E as <- <- <-.
  apply He. reflexivity.
Qed.

(** C4 (amended): the collection a manager holds after construction and
    any sequence of calls is the rows that construction read from the
    tabular resource, taken as they are, followed by contacts that each
    passed the email and the phone check when [add_contact] appended
    them. *)
Theorem contacts_loaded_then_validated
    (csv_file json_file : string) (w w0 : world) (m0 : ContactManager.t)
    (ops : list ContactManager.op) :
  ContactManager.init csv_file json_file w = (Ok m0, w0) ->
  fst (CSVProcessor.read_csv {| filename := csv_file |} w)
  = Ok (ContactManager.contacts m0)
  /\ exists added,
       ContactManager.contacts (fst (ContactManager.run_ops ops m0 w0))
       = ContactManager.contacts m0 ++ added
       /\ Forall ContactManager.valid_contact added.
Proof.
  intros Hinit. split; [|apply ManagerFacts.run_ops_contacts].
  unfold ContactManager.init in Hinit.
  destruct (CSVProcessor.read_csv {| filename := csv_file |} w) as [[rows|e] w1];
    [|discriminate].
  destruct (JSONProcessor.read_json {| filename := json_file |} w1)
    as [[data|e] w2]; [|discriminate].
  injection Hinit as <- _. reflexivity.
Qed.

Lemma contacts_loaded_then_validated_witness :
  fst (CSVProcessor.read_csv {| filename := "contacts.csv" |}
         Samples.no_files)
  = Ok (ContactManager.contacts Samples.fresh_manager)
  /\ exists added,
       ContactManager.contacts
         (fst (ContactManager.run_ops Samples.some_calls
                 Samples.fresh_manager Samples.after_init))
       = ContactManager.contacts Samples.fresh_manager ++ added
       /\ Forall ContactManager.valid_contact added.
Proof.
  apply (contacts_loaded_then_validated "contacts.csv" "metadata.json"
           Samples.no_files Samples.after_init Samples.fresh_manager
           Samples.some_calls).
  reflexivity.
Defined.

(** C5: [add_contact] raises the invalid-email error when
    [extract_emails] finds nothing in the email; otherwise it raises the
    invalid-phone error when [validate_phone_number] rejects the phone;
    otherwise it raises nothing and the manager it leaves has the triple
    appended to its contacts and everything else as before.  The two
    sample calls raise as listed, and the two errors differ: both are
    [ValueError], told apart by their messages. *)
Theorem add_contact_checks :
  (forall self name email phone w,
      (MyLibrary.extract_emails email = [] ->
       ContactManager.add_contact self name email phone w
       = (Raise ContactManager.InvalidEmail, self, w))
      /\ (MyLibrary.extract_emails email <> [] ->
          MyLibrary.validate_phone_number phone = false ->
          ContactManager.add_contact self name email phone w
          = (Raise ContactManager.InvalidPhone, self, w))
      /\ (MyLibrary.extract_emails email <> [] ->
          MyLibrary.validate_phone_number phone = true ->
          exists self',
            ContactManager.add_contact self name email phone w
            = (Ok tt, self', w)
            /\ ContactManager.contacts self'
               = ContactManager.contacts self ++ [[name; email; phone]]
            /\ ContactManager.metadata self' = ContactManager.metadata self
            /\ ContactManager.csv_processor self'
               = ContactManager.csv_processor self
            /\ ContactManager.json_processor self'
               = ContactManager.json_processor self))
  /\ (forall self name valid_phone w,
         MyLibrary.validate_phone_number valid_phone = true ->
         ContactManager.add_contact self name "invalid-email" valid_phone w
         = (Raise ContactManager.InvalidEmail, self, w))
  /\ (forall self name valid_email w,
         MyLibrary.extract_emails valid_email <> [] ->
         ContactManager.add_contact self name valid_email "1234567890" w
         = (Raise ContactManager.InvalidPhone, self, w))
  /\ ContactManager.InvalidEmail = ValueError "Invalid email format."
  /\ ContactManager.InvalidPhone = ValueError "Invalid phone number format."
  /\ ContactManager.InvalidEmail <> ContactManager.InvalidPhone.
Proof.
  split; [|split; [|split; [|split; [|split]]]].
  - intros self name email phone w.
    rewrite ManagerFacts.add_contact_cases. split; [|split].
    + now intros ->.
    + intros H1 H2. rewrite H2.
      destruct (MyLibrary.extract_emails email); congruence.
    + intros H1 H2. rewrite H2.
      destruct (MyLibrary.extract_emails email); [congruence|].
      eexists. split; [reflexivity|]. repeat split.
  - intros self name valid_phone w _. reflexivity.
  - intros self name valid_email w H. unfold ContactManager.add_contact.
    destruct (MyLibrary.extract_emails valid_email); [congruence|reflexivity].
  - reflexivity.
  - reflexivity.
  - discriminate.
Qed.

Lemma add_contact_checks_witness :
  (exists self',
      ContactManager.add_contact Samples.fresh_manager
        "Mol7" "Mol7@kent.ac.uk" "123-456-7890" Samples.after_init
      = (Ok tt, self', Samples.after_init)
      /\ ContactManager.contacts self'
         = ContactManager.contacts Samples.fresh_manager
             ++ [["Mol7"; "Mol7@kent.ac.uk"; "123-456-7890"]%string]
      /\ ContactManager.metadata self'
         = ContactManager.metadata Samples.fresh_manager
      /\ ContactManager.csv_processor self'
         = ContactManager.csv_processor Samples.fresh_manager
      /\ ContactManager.json_processor self'
         = ContactManager.json_processor Samples.fresh_manager)
  /\ ContactManager.add_contact Samples.fresh_manager
       "Invalid Email" "invalid-email" "123-456-7890" Samples.after_init
     = (Raise ContactManager.InvalidEmail, Samples.fresh_manager,
        Samples.after_init)
  /\ ContactManager.add_contact Samples.fresh_manager
       "Invalid Phone" "valid@example.com" "1234567890" Samples.after_init
     = (Raise ContactManager.InvalidPhone, Samples.fresh_manager,
        Samples.after_init).
Proof.
  split; [|split].
  - apply (proj2 (proj2 (proj1 add_contact_checks Samples.fresh_manager
                           "Mol7" "Mol7@kent.ac.uk" "123-456-7890"
                           Samples.after_init)));
      [discriminate|reflexivity].
  - apply (proj1 (proj2 add_contact_checks)). reflexivity.
  - apply (proj1 (proj2 (proj2 add_contact_checks))). discriminate.
Defined.

(** C6: after a successful [add_contact] the last element of the
    collection is the triple [name; email; phone], in that order, and the
    world is the one before the call: no file was opened or written. *)
Theorem add_contact_appends_in_memory
    (self : ContactManager.t) (name email phone : string) (w : world) :
  MyLibrary.extract_emails email <> [] ->
  MyLibrary.validate_phone_number phone = true ->
  exists self',
    ContactManager.add_contact self name email phone w = (Ok tt, self', w)
    /\ List.last (ContactManager.contacts self') [] = [name; email; phone]
    /\ ContactManager.metadata self' = ContactManager.metadata self.
Proof.
  intros He Hp. eexists. split.
  - rewrite ManagerFacts.add_contact_cases, Hp.
    destruct (MyLibrary.extract_emails email); [congruence|reflexivity].
  - split; [|reflexivity]. cbn [ContactManager.contacts
                                ContactManager.with_contacts].
    apply last_last.
Qed.

Lemma add_contact_appends_in_memory_witness :
  exists self',
    ContactManager.add_contact
      {| ContactManager.csv_processor := {| filename := "test_contacts.csv" |};
         ContactManager.json_processor := {| filename := "test_metadata.json" |};
         ContactManager.contacts := [["a"; "b"; "c"]%string];
         ContactManager.metadata := Json.JObject [] |}
      "Mol7" "Mol7@kent.ac.uk" "123-456-7890"
      {| files := ∅; opened := [] |}
    = (Ok tt, self', {| files := ∅; opened := [] |})
    /\ List.last (ContactManager.contacts self') []
       = ["Mol7"; "Mol7@kent.ac.uk"; "123-456-7890"]%string
    /\ ContactManager.metadata self' = Json.JObject [].
Proof.
  apply add_contact_appends_in_memory; [discriminate|reflexivity].
Defined.

(** C8: when the file does not exist, [read_csv] returns no rows and
    [read_json] returns the empty mapping; neither raises. *)
Theorem read_missing_file_is_empty (self : FileProcessor) (w : world) :
  files w !! filename self = None ->
  fst (CSVProcessor.read_csv self w) = Ok []
  /\ fst (JSONProcessor.read_json self w) = Ok (Json.JObject []).
Proof.
  intros H. unfold CSVProcessor.read_csv, JSONProcessor.read_json.
  rewrite H. split; reflexivity.
Qed.

Lemma read_missing_file_is_empty_witness :
  fst (CSVProcessor.read_csv {| filename := "test_contacts.csv" |}
         {| files := {[ "other.csv"%string := "x"%string ]}; opened := [] |})
  = Ok []
  /\ fst (JSONProcessor.read_json {| filename := "test_contacts.csv" |}
            {| files := {[ "other.csv"%string := "x"%string ]}; opened := [] |})
     = Ok (Json.JObject []).
Proof.
  apply read_missing_file_is_empty. reflexivity.
Defined.

(** C10: when [add_contact] raises, the manager (its contacts and its
    metadata) and the world (the files and the record of opens) are
    exactly those before the call. *)
Theorem add_contact_failure_atomic
    (self : ContactManager.t) (name email phone : string) (w : world)
    (e : exn) :
  fst (fst (ContactManager.add_contact self name email phone w)) = Raise e ->
  ContactManager.add_contact self name email phone w = (Raise e, self, w).
Proof.
  rewrite ManagerFacts.add_contact_cases.
  destruct (MyLibrary.extract_emails email).
  - cbn [fst]. now intros ->.
  - destruct (MyLibrary.validate_phone_number phone); cbn [fst].
    + discriminate.
    + now intros ->.
Qed.

Lemma add_contact_failure_atomic_witness :
  ContactManager.add_contact
    {| ContactManager.csv_processor := {| filename := "test_contacts.csv" |};
       ContactManager.json_processor := {| filename := "test_metadata.json" |};
       ContactManager.contacts := [["a"; "b"; "c"]%string];
       ContactManager.metadata := Json.JObject [] |}
    "Invalid Email" "invalid-email" "123-456-7890"
    {| files := ∅; opened := [] |}
  = (Raise ContactManager.InvalidEmail,
     {| ContactManager.csv_processor := {| filename := "test_contacts.csv" |};
        ContactManager.json_processor := {| filename := "test_metadata.json" |};
        ContactManager.contacts := [["a"; "b"; "c"]%string];
        ContactManager.metadata := Json.JObject [] |},
     {| files := ∅; opened := [] |}).
Proof.
  apply add_contact_failure_atomic. reflexivity.
Defined.

(** ** The metadata store: what the decoder makes of the encoder's output *)

Module JsonFacts.
Import Json JsonReading.

Lemma json_ind' (P : json -> Prop) :
  P JNull ->
  (forall b, P (JBool b)) ->
  (forall z, P (JInt z)) ->
  (forall s, P (JString s)) ->
  (forall items, Forall P items -> P (JArray items)) ->
  (forall pairs, Forall (fun kv => P (snd kv)) pairs -> P (JObject pairs)) ->
  forall v, P v.
Proof.
  intros Hn Hb Hz Hs Ha Ho.
  refine (fix IH (v : json) : P v :=
            match v with
            | JNull => Hn
            | JBool b => Hb b
            | JInt z => Hz z
            | JString s => Hs s
            | JArray items =>
                Ha items
                  ((fix all (l : list json) : Forall P l :=
                      match l with
                      | [] => @List.Forall_nil _ P
                      | x :: r => @List.Forall_cons _ P x r (IH x) (all r)
                      end) items)
            | JObject pairs =>
                Ho pairs
                  ((fix all (l : list (string * json))
                      : Forall (fun kv => P (snd kv)) l :=
                      match l with
                      | [] => @List.Forall_nil _ _
                      | kv :: r =>
                          @List.Forall_cons _ (fun kv => P (snd kv)) kv r
                            (IH (snd kv)) (all r)
                      end) pairs)
            end).
Qed.





(** *** Strings *)



(** *** White space *)




(** *** Numbers *)











(** *** Values *)

















(** *** What [json.dump] writes *)

Lemma iterencode_array level x rest :
  iterencode level (JArray (x :: rest))
  = iterencode_items level ("["%char :: newline_indent (S level)) (x :: rest).
Proof. reflexivity. Qed.

Lemma iterencode_object level kv rest :
  iterencode level (JObject (kv :: rest))
  = andthen ("{"%char :: newline_indent (S level), None)
      (iterencode_pairs level true (kv :: rest)).
Proof. reflexivity. Qed.

Lemma iterencode_items_cons level buf x rest :
  iterencode_items level buf (x :: rest)
  = andthen
      match x with
      | JArray _ | JObject _ =>
          andthen (buf, None) (iterencode (S level) x)
      | _ =>
          match iterencode (S level) x with
          | (t, None) => (buf ++ t, None)
          | (_, Some e) => ([], Some e)
          end
      end
      (iterencode_items level (item_separator (S level)) rest).
Proof. reflexivity. Qed.

Lemma iterencode_pairs_cons level first k x rest :
  iterencode_pairs level first ((k, x) :: rest)
  = andthen
      ((if first then [] else item_separator (S level))
         ++ encode_string (chars_of k) ++ chars_of ": ", None)
      (andthen (iterencode (S level) x) (iterencode_pairs level false rest)).
Proof. reflexivity. Qed.






End JsonFacts.

(** ** The metadata mapping *)

Module DictFacts.
Import Json.


Lemma dict_set_keys d k v :
  map fst (dict_set d k v) = map fst d \/
  (~ In k (map fst d) /\ map fst (dict_set d k v) = map fst d ++ [k]).
Proof.
  induction d as [|[k' v'] d IH]; cbn [dict_set map fst].
  - right. split; [intros []|reflexivity].
  - destruct (String.eqb_spec k' k) as [->|Hne]; [left; reflexivity|].
    cbn [map fst]. destruct IH as [->|[Hin ->]]; [left; reflexivity|].
    right. split; [|reflexivity]. intros [?|?]; auto.
Qed.

Lemma dict_set_values (P : json -> Prop) d k v :
  Forall (fun kv => P (snd kv)) d -> P v ->
  Forall (fun kv => P (snd kv)) (dict_set d k v).
Proof.
  intros Hd Hv. induction Hd as [|[k' v'] d Hx Hd IH]; cbn [dict_set].
  - constructor; auto.
  - destruct (String.eqb k' k); constructor; auto.
Qed.

(** Assigning to a key keeps the mapping a mapping. *)
Lemma dict_set_wf d k v :
  wf (JObject d) -> wf v -> wf (JObject (dict_set d k v)).
Proof.
  intros Hd Hv. inversion Hd as [ | | | | |? Hnd Hall]; subst.
  constructor; [|now apply dict_set_values].
  destruct (dict_set_keys d k v) as [->|[Hin ->]]; [assumption|].
  apply List.NoDup_app; [assumption|repeat constructor; intros []|].
  intros x Hx [<-|[]]. auto.
Qed.

End DictFacts.

Module WfFacts.
Import Json.

Lemma dict_of_pairs_wf pairs :
  Forall (fun kv => wf (snd kv)) pairs -> wf (JObject (dict_of_pairs pairs)).
Proof.
  unfold dict_of_pairs.
  assert (H : forall acc, wf (JObject acc) ->
            Forall (fun kv => wf (snd kv)) pairs ->
            wf (JObject (fold_left (fun d kv => dict_set d (fst kv) (snd kv))
                           pairs acc))).
  { induction pairs as [|[k v] pairs IH]; intros acc Hacc Hall; [exact Hacc|].
    inversion Hall; subst. cbn [fold_left fst snd]. apply IH; auto.
    now apply DictFacts.dict_set_wf. }
  apply H. repeat constructor.
Qed.

Ltac break_match H :=
  match type of H with
  | context [match ?x with _ => _ end] =>
      let E := fresh "E" in destruct x eqn:E
  end.

Lemma scan_wf fuel :
  (forall d s v r, scan_once fuel d s = Ok (v, r) -> wf v) /\
  (forall d s l r, parse_items fuel d s = Ok (l, r) -> Forall wf l) /\
  (forall d s l r, parse_pairs fuel d s = Ok (l, r) ->
                   Forall (fun kv => wf (snd kv)) l).
Proof.
  induction fuel as [|fuel (IH1 & IH2 & IH3)];
    [repeat split; intros; discriminate|].
  repeat split.
  - intros d s v r H. cbn [scan_once] in H.
    unfold bind, match_number, too_deep in H.
    repeat (break_match H; try discriminate);
      injection H as <- <-;
      first [apply dict_of_pairs_wf; eauto | repeat constructor; eauto].
  - intros d s l r H. cbn [parse_items] in H. unfold bind in H.
    repeat (break_match H; try discriminate);
      injection H as <- <-; repeat constructor; eauto.
  - intros d s l r H. cbn [parse_pairs] in H. unfold bind in H.
    repeat (break_match H; try discriminate);
      injection H as <- <-; repeat constructor; cbn [snd]; eauto.
Qed.

Lemma loads_wf s v : loads s = Ok v -> wf v.
Proof.
  unfold loads, bind. intros H.
  destruct (scan_once (S (length s)) nesting_limit (skip_whitespace s))
    as [[v' r]|] eqn:E; [|discriminate].
  destruct (skip_whitespace r); [|discriminate]. injection H as <-.
  eapply (proj1 (scan_wf _)); eauto.
Qed.

(** The metadata of a manager is a well-formed value from construction
    on, as long as the values a client saves are. *)
Lemma init_metadata_wf csv_file json_file w m w' :
  ContactManager.init csv_file json_file w = (Ok m, w') ->
  wf (ContactManager.metadata m).
Proof.
  unfold ContactManager.init, JSONProcessor.read_json. intros H.
  destruct (CSVProcessor.read_csv {| filename := csv_file |} w)
    as [[rows|e] w1]; [|discriminate].
  cbn [filename] in H.
  destruct (files w1 !! json_file) as [text|].
  - destruct (loads (chars_of text)) as [data|e] eqn:E; [|discriminate].
    injection H as <- _. cbn [ContactManager.metadata].
    eapply loads_wf; eauto.
  - injection H as <- _. repeat constructor.
Qed.

Lemma run_op_metadata_wf o m w :
  ContactManager.values_wf [o] ->
  wf (ContactManager.metadata m) ->
  wf (ContactManager.metadata (snd (fst (ContactManager.run_op o m w)))).
Proof.
  intros Ho Hm. inversion Ho as [|? ? Hv _]; subst.
  destruct o as [name email phone| |key value]; cbn [ContactManager.run_op].
  - rewrite ManagerFacts.add_contact_cases.
    destruct (MyLibrary.extract_emails email); [exact Hm|].
    destruct (MyLibrary.validate_phone_number phone); exact Hm.
  - exact Hm.
  - unfold ContactManager.save_metadata.
    destruct (ContactManager.metadata m) eqn:E; cbn [fst snd];
      try (rewrite E; exact Hm).
    rewrite StoreFacts.write_json_eq.
    cbn [fst snd ContactManager.metadata ContactManager.with_metadata].
    now apply DictFacts.dict_set_wf.
Qed.

Lemma run_ops_metadata_wf ops :
  forall m w,
    ContactManager.values_wf ops ->
    wf (ContactManager.metadata m) ->
    wf (ContactManager.metadata (fst (ContactManager.run_ops ops m w))).
Proof.
  induction ops as [|o ops IH]; intros m w Hops Hm; [exact Hm|].
  inversion Hops as [|? ? Ho Hrest]; subst. cbn [ContactManager.run_ops].
  pose proof (run_op_metadata_wf o m w) as H1.
  destruct (ContactManager.run_op o m w) as [[r m'] w']. cbn [fst snd] in H1.
  apply IH; [exact Hrest|]. apply H1; [|exact Hm].
  constructor; [exact Ho|constructor].
Qed.

End WfFacts.

Module MetadataFacts.
Import Json.




End MetadataFacts.




(** * Further properties of the code *)

Module PhoneMore.
Import MyLibrary Shapes MoreNotions PhoneFacts.

Lemma not_digit_white c : one_white c -> is_digit c = false.
Proof.
  intros H. destruct (is_digit c) eqn:E; [|reflexivity].
  exfalso. exact (digit_not_white c E H).
Qed.

Lemma shape_metrics q :
  phone_shape one_white q ->
  (count_digits q = 7 \/ count_digits q = 10)
  /\ 8 <= length q <= 14.
Proof.
  intros Hq. destruct Hq; explode_digits;
    try match goal with
        | H : one_white _ |- _ => apply not_digit_white in H
        end;
    (split;
     [unfold count_digits; cbn [List.filter app length];
      repeat match goal with
        | H : is_digit ?c = _ |- _ => rewrite H; clear H
        end;
      first [left; reflexivity | right; reflexivity]
     |cbn [length app]; lia]).
Qed.

Lemma count_digits_snoc_lf q : count_digits (q ++ [LF]) = count_digits q.
Proof.
  unfold count_digits. rewrite List.filter_app, List.length_app.
  change (List.filter is_digit [LF]) with (@nil ascii). cbn [length]. lia.
Qed.

End PhoneMore.

(** X1: a single line feed at the end does not change the verdict: for a
    string [p] that does not itself end with a line feed,
    [validate_phone_number] answers the same on [p] and on [p] followed
    by a line feed. *)
Theorem validate_phone_number_final_line_feed (p : string) :
  Shapes.ends_with_lf (Shapes.chars p) = false ->
  MyLibrary.validate_phone_number (p ++ String LF "")
  = MyLibrary.validate_phone_number p.
Proof.
  intros Hlf.
  destruct (MyLibrary.validate_phone_number p) eqn:Hp.
  - apply PhoneFacts.validate_phone_number_spec in Hp as (q & Hq & [E|E]).
    + apply PhoneFacts.validate_phone_number_spec. exists q. split; auto.
      right. rewrite PhoneFacts.chars_app, E. reflexivity.
    + rewrite E, PhoneFacts.ends_with_lf_snoc in Hlf. discriminate.
  - destruct (MyLibrary.validate_phone_number (p ++ String LF "")) eqn:Hpl;
      [|reflexivity].
    apply PhoneFacts.validate_phone_number_spec in Hpl as (q & Hq & E).
    rewrite PhoneFacts.chars_app in E. cbn [Shapes.chars list_ascii_of_string] in E.
    destruct E as [E|E].
    + pose proof (PhoneFacts.phone_shape_no_final_lf _ _ Hq) as Hn.
      rewrite <- E, PhoneFacts.ends_with_lf_snoc in Hn. discriminate.
    + apply app_inv_tail in E.
      assert (MyLibrary.validate_phone_number p = true); [|congruence].
      apply PhoneFacts.validate_phone_number_spec. exists q. auto.
Qed.

Lemma validate_phone_number_final_line_feed_witness :
  MyLibrary.validate_phone_number ("123-456-7890" ++ String LF "")
  = MyLibrary.validate_phone_number "123-456-7890".
Proof.
  apply validate_phone_number_final_line_feed. reflexivity.
Defined.

(** X2: among the texts of characters below code point 256, where the
    class of digits of the pattern is 0-9, every text that
    [validate_phone_number] accepts holds exactly 7 or exactly 10 of the
    digits 0-9 and is between 8 and 15 characters long. *)
Theorem accepted_phone_has_7_or_10_digits (p : string) :
  MyLibrary.validate_phone_number p = true ->
  (MoreNotions.count_digits (Shapes.chars p) = 7
   \/ MoreNotions.count_digits (Shapes.chars p) = 10)
  /\ 8 <= String.length p <= 15.
Proof.
  intros Hp. rewrite <- StoreFacts.length_chars_of.
  apply PhoneFacts.validate_phone_number_spec in Hp as (q & Hq & E).
  change (chars_of p) with (Shapes.chars p).
  destruct (PhoneMore.shape_metrics q Hq) as (Hc & Hl).
  destruct E as [->| ->].
  - split; [exact Hc|lia].
  - rewrite PhoneMore.count_digits_snoc_lf, List.length_app. cbn [length].
    split; [exact Hc|lia].
Qed.

Lemma accepted_phone_has_7_or_10_digits_witness :
  (MoreNotions.count_digits (Shapes.chars "(123) 456-7890") = 7
   \/ MoreNotions.count_digits (Shapes.chars "(123) 456-7890") = 10)
  /\ 8 <= String.length "(123) 456-7890" <= 15.
Proof.
  apply accepted_phone_has_7_or_10_digits. reflexivity.
Defined.

Module EmailMore.
Import Re MyLibrary Shapes Notions MoreNotions EmailFacts.

Lemma extract_emails_chars text :
  map chars (extract_emails text) = findall email_pattern (chars text).
Proof.
  unfold extract_emails. rewrite map_map.
  rewrite (map_ext _ (fun x => x) chars_str). apply map_id.
Qed.

Lemma extraction_sound s out :
  extraction s out ->
  Forall (fun e => email_shape e /\ substring e s) out.
Proof.
  induction 1 as [|gap e rest out He Hleft Hlong Hrest IH]; constructor.
  - split; [exact He|]. exists gap, rest. reflexivity.
  - eapply List.Forall_impl; [|exact IH].
    intros e' [He' (pre & suf & ->)]. split; [exact He'|].
    exists (gap ++ e ++ pre), suf. now rewrite <- !app_assoc.
Qed.

Lemma extraction_nil s out :
  extraction s out ->
  (out = [] <-> forall e, substring e s -> ~ email_shape e).
Proof.
  intros H. inversion H as [text Hnone|gap e rest out' He]; subst.
  - split; [|reflexivity]. intros _ e (pre & suf & ->) He.
    apply (Hnone pre (e ++ suf) eq_refl). exists e, suf. auto.
  - split; [discriminate|]. intros Hno. exfalso.
    apply (Hno e); [|exact He]. exists gap, rest. reflexivity.
Qed.

(** The search finds an address exactly when the text holds one. *)
Lemma extract_emails_nil text :
  extract_emails text = [] <->
  forall e, substring e (chars text) -> ~ email_shape e.
Proof.
  rewrite <- (extraction_nil (chars text) (findall email_pattern (chars text)))
    by apply findall_email.
  rewrite <- extract_emails_chars.
  destruct (extract_emails text); split; intros; try discriminate; reflexivity.
Qed.

Lemma extract_emails_found text :
  extract_emails text <> [] <->
  exists e, substring e (chars text) /\ email_shape e.
Proof.
  split.
  - intros Hne. pose proof (findall_email (chars text)) as Hx.
    rewrite <- extract_emails_chars in Hx. apply extraction_sound in Hx.
    destruct (extract_emails text) as [|e out]; [congruence|].
    inversion Hx as [|? ? [He Hs] _]; subst. eauto.
  - intros (e & Hs & He) Hnil. rewrite extract_emails_nil in Hnil.
    exact (Hnil e Hs He).
Qed.

End EmailMore.

(** X3: [extract_emails] returns at least one address exactly when some
    substring of the text is an address (a local part, [@], a first
    domain group, a dot, a tail). *)
Theorem extract_emails_finds_address_iff_present (text : string) :
  MyLibrary.extract_emails text <> [] <->
  exists e,
    MoreNotions.substring e (Shapes.chars text) /\ Shapes.email_shape e.
Proof. apply EmailMore.extract_emails_found. Qed.

(** X4: everything [extract_emails] returns is a substring of the text
    and is an address; it returns nothing that the text does not hold. *)
Theorem extract_emails_returns_addresses_of_text (text e : string) :
  In e (MyLibrary.extract_emails text) ->
  Shapes.email_shape (Shapes.chars e)
  /\ MoreNotions.substring (Shapes.chars e) (Shapes.chars text).
Proof.
  intros Hin. pose proof (EmailFacts.findall_email (Shapes.chars text)) as Hx.
  rewrite <- EmailMore.extract_emails_chars in Hx.
  apply EmailMore.extraction_sound in Hx.
  rewrite List.Forall_forall in Hx. apply Hx.
  apply in_map. exact Hin.
Qed.

Lemma extract_emails_returns_addresses_of_text_witness :
  Shapes.email_shape (Shapes.chars "mol7@kent.ac.uk")
  /\ MoreNotions.substring (Shapes.chars "mol7@kent.ac.uk")
       (Shapes.chars "Contact me at mol7@kent.ac.uk ").
Proof.
  apply (extract_emails_returns_addresses_of_text
           "Contact me at mol7@kent.ac.uk " "mol7@kent.ac.uk").
  left. reflexivity.
Defined.

(** X5: on texts of characters below code point 256, where the digits
    of the pattern are 0-9 and its white space is that below 256,
    [add_contact] succeeds exactly when the email text holds an address
    somewhere (the check is containment, not a match of the whole text)
    and the phone is one of the phone shapes, alone or followed by one
    line feed. *)
Theorem add_contact_accepts_iff
    (self : ContactManager.t) (name email phone : string) (w : world) :
  fst (fst (ContactManager.add_contact self name email phone w)) = Ok tt <->
  (exists e,
      MoreNotions.substring e (Shapes.chars email) /\ Shapes.email_shape e)
  /\ (exists q,
         Shapes.phone_shape Shapes.one_white q
         /\ (Shapes.chars phone = q \/ Shapes.chars phone = q ++ [LF])).
Proof.
  rewrite <- EmailMore.extract_emails_found.
  rewrite <- PhoneFacts.validate_phone_number_spec.
  rewrite ManagerFacts.add_contact_cases.
  destruct (MyLibrary.extract_emails email) as [|e es].
  - cbn [fst]. split; [discriminate|]. intros [H _]. congruence.
  - destruct (MyLibrary.validate_phone_number phone); cbn [fst].
    + split; [|reflexivity]. intros _. split; [discriminate|reflexivity].
    + split; [discriminate|]. intros [_ H]. discriminate.
Qed.

Module RunMore.
Import ContactManager MoreNotions.

Lemma with_contacts_same self : with_contacts self (contacts self) = self.
Proof. destruct self. reflexivity. Qed.

Lemma add_calls_run ts :
  forall self w,
    Forall accepted ts ->
    run_ops (add_calls ts) self w
    = (with_contacts self (contacts self ++ rows_of ts), w).
Proof.
  induction ts as [|[[name email] phone] ts IH]; intros self w Hall.
  - cbn [add_calls rows_of map run_ops].
    now rewrite app_nil_r, with_contacts_same.
  - inversion Hall as [|? ? [He Hp] Hrest]; subst. cbn [fst snd] in He, Hp.
    cbn [add_calls rows_of map run_ops run_op fst snd].
    rewrite ManagerFacts.add_contact_cases, Hp.
    destruct (MyLibrary.extract_emails email) as [|e es]; [congruence|].
    fold (add_calls ts). fold (rows_of ts). rewrite IH by assumption.
    cbn [with_contacts contacts csv_processor json_processor metadata].
    now rewrite <- app_assoc.
Qed.

End RunMore.

(** X6: a run of [add_contact] calls that all pass the checks leaves a
    manager whose contacts are those before the run followed by the
    triples in call order, duplicates kept, with the metadata and the
    world as they were. *)
Theorem add_contact_run_appends_in_order
    (ts : list (string * string * string)) (self : ContactManager.t)
    (w : world) :
  Forall MoreNotions.accepted ts ->
  exists self',
    ContactManager.run_ops (MoreNotions.add_calls ts) self w = (self', w)
    /\ ContactManager.contacts self'
       = ContactManager.contacts self ++ MoreNotions.rows_of ts
    /\ ContactManager.metadata self' = ContactManager.metadata self
    /\ ContactManager.csv_processor self' = ContactManager.csv_processor self
    /\ ContactManager.json_processor self'
       = ContactManager.json_processor self.
Proof.
  intros Hall. eexists. split; [now apply RunMore.add_calls_run|].
  repeat split.
Qed.

Lemma add_contact_run_appends_in_order_witness :
  exists self',
    ContactManager.run_ops
      (MoreNotions.add_calls
         [("Mol7", "Mol7@kent.ac.uk", "123-456-7890");
          ("Mol7", "Mol7@kent.ac.uk", "123-456-7890")]%string)
      Samples.fresh_manager Samples.after_init
    = (self', Samples.after_init)
    /\ ContactManager.contacts self'
       = ContactManager.contacts Samples.fresh_manager
           ++ MoreNotions.rows_of
                [("Mol7", "Mol7@kent.ac.uk", "123-456-7890");
                 ("Mol7", "Mol7@kent.ac.uk", "123-456-7890")]%string
    /\ ContactManager.metadata self'
       = ContactManager.metadata Samples.fresh_manager
    /\ ContactManager.csv_processor self'
       = ContactManager.csv_processor Samples.fresh_manager
    /\ ContactManager.json_processor self'
       = ContactManager.json_processor Samples.fresh_manager.
Proof.
  apply add_contact_run_appends_in_order.
  repeat constructor; discriminate.
Defined.

Module PersistMore.
Import Json ContactManager MoreNotions.




Lemma dict_set_twice d k v1 v2 :
  dict_set (dict_set d k v1) k v2 = dict_set d k v2.
Proof.
  induction d as [|[k' v'] d IH]; cbn [dict_set].
  - now rewrite String.eqb_refl.
  - destruct (String.eqb k' k) eqn:E; cbn [dict_set]; rewrite E;
      [reflexivity|now rewrite IH].
Qed.

Lemma loads_blank s :
  Forall is_json_whitespace s ->
  loads s = Raise (JSONDecodeError "Expecting value").
Proof.
  intros H. unfold loads.
  assert (E : skip_whitespace s = []).
  { induction H as [|c s Hc _ IH]; [reflexivity|].
    cbn [skip_whitespace]. unfold is_json_whitespace in Hc. now rewrite Hc. }
  rewrite E. reflexivity.
Qed.

Lemma run_op_processors o self w :
  csv_processor (snd (fst (run_op o self w))) = csv_processor self
  /\ json_processor (snd (fst (run_op o self w))) = json_processor self.
Proof.
  destruct o as [name email phone| |key value]; cbn [run_op].
  - rewrite ManagerFacts.add_contact_cases.
    destruct (MyLibrary.extract_emails email); [auto|].
    destruct (MyLibrary.validate_phone_number phone); auto.
  - auto.
  - unfold save_metadata. destruct (metadata self); auto.
    rewrite StoreFacts.write_json_eq. auto.
Qed.

Lemma run_op_frame o self w f :
  f <> filename (csv_processor self) ->
  f <> filename (json_processor self) ->
  files (snd (run_op o self w)) !! f = files w !! f.
Proof.
  intros Hc Hj. destruct o as [name email phone| |key value]; cbn [run_op].
  - rewrite ManagerFacts.add_contact_cases.
    destruct (MyLibrary.extract_emails email); [auto|].
    destruct (MyLibrary.validate_phone_number phone); auto.
  - unfold save_contacts, CSVProcessor.write_csv, write_text.
    cbn [snd files]. now rewrite lookup_insert_ne by congruence.
  - unfold save_metadata.
    destruct (metadata self); try reflexivity.
    rewrite StoreFacts.write_json_eq. unfold write_text. cbn [snd files].
    now rewrite lookup_insert_ne by congruence.
Qed.

Lemma save_metadata_other self key value w :
  (forall d, metadata self <> JObject d) ->
  exists msg, save_metadata self key value w = (Raise (TypeError msg), self, w).
Proof.
  intros Hm. unfold save_metadata.
  destruct (metadata self) as [ | | | | |d]; try (eexists; reflexivity).
  exfalso. exact (Hm d eq_refl).
Qed.

End PersistMore.





(** X9: saving a key twice leaves the manager and the files as saving
    the second value alone does; this holds whatever the metadata is. *)
Theorem save_metadata_last_value_wins
    (self : ContactManager.t) (key : string) (v1 v2 : Json.json)
    (w : world) :
  fst (ContactManager.run_ops
         [ContactManager.SaveMetadata key v1;
          ContactManager.SaveMetadata key v2] self w)
  = fst (ContactManager.run_ops [ContactManager.SaveMetadata key v2] self w)
  /\ files (snd (ContactManager.run_ops
                   [ContactManager.SaveMetadata key v1;
                    ContactManager.SaveMetadata key v2] self w))
     = files (snd (ContactManager.run_ops
                     [ContactManager.SaveMetadata key v2] self w)).
Proof.
  cbn [ContactManager.run_ops ContactManager.run_op].
  destruct (ContactManager.metadata self) as [ | | | | |d] eqn:Hm.
  6: { rewrite !(ManagerFacts.save_metadata_mapping self d) by exact Hm.
       rewrite (ManagerFacts.save_metadata_mapping _
                  (Json.dict_set d key v1)) by reflexivity.
       cbn [ContactManager.with_metadata ContactManager.metadata
            ContactManager.json_processor ContactManager.csv_processor
            ContactManager.contacts fst snd].
       rewrite PersistMore.dict_set_twice. split; [reflexivity|].
       cbn [write_text files]. apply insert_insert_eq. }
  all: destruct (PersistMore.save_metadata_other self key v1 w) as [m1 E1];
    [intros d; rewrite Hm; discriminate|];
    destruct (PersistMore.save_metadata_other self key v2 w) as [m2 E2];
    [intros d; rewrite Hm; discriminate|];
    rewrite E1, E2; split; reflexivity.
Qed.

(** X10: a JSON file that holds a value other than a mapping loads
    without complaint at construction; every later [save_metadata] then
    raises a [TypeError] and leaves the manager and the files as they
    were. *)
Theorem save_metadata_raises_on_non_mapping
    (csv_file json_file text : string) (rows : list (list string))
    (v : Json.json) (w : world) (key : string) (value : Json.json) :
  fst (CSVProcessor.read_csv {| filename := csv_file |} w) = Ok rows ->
  files w !! json_file = Some text ->
  Json.loads (chars_of text) = Ok v ->
  (forall d, v <> Json.JObject d) ->
  exists m w' msg,
    ContactManager.init csv_file json_file w = (Ok m, w')
    /\ ContactManager.metadata m = v
    /\ ContactManager.save_metadata m key value w'
       = (Raise (TypeError msg), m, w').
Proof.
  intros Hcsv Hf Hload Hv. unfold ContactManager.init.
  destruct (CSVProcessor.read_csv {| filename := csv_file |} w)
    as [r w1] eqn:E.
  assert (Hw1 : files w1 = files w).
  { unfold CSVProcessor.read_csv in E.
    destruct (files w !! filename {| filename := csv_file |});
      injection E as _ <-; reflexivity. }
  cbn [fst] in Hcsv. subst r.
  unfold JSONProcessor.read_json. cbn [filename].
  rewrite Hw1, Hf, Hload.
  unfold ContactManager.save_metadata. cbn [ContactManager.metadata].
  destruct v as [ | | | | |d];
    try (eexists _, _, _; repeat split; reflexivity).
  exfalso. exact (Hv d eq_refl).
Qed.

Lemma save_metadata_raises_on_non_mapping_witness :
  exists m w' msg,
    ContactManager.init "contacts.csv" "metadata.json"
      {| files := {[ "metadata.json"%string := "[]"%string ]};
         opened := [] |}
    = (Ok m, w')
    /\ ContactManager.metadata m = Json.JArray []
    /\ ContactManager.save_metadata m "last_updated"
         (Json.JString "11-12-2024") w'
       = (Raise (TypeError msg), m, w').
Proof.
  apply (save_metadata_raises_on_non_mapping
           "contacts.csv" "metadata.json" "[]" [] (Json.JArray [])
           {| files := {[ "metadata.json"%string := "[]"%string ]};
              opened := [] |}).
  - reflexivity.
  - reflexivity.
  - reflexivity.
  - discriminate.
Defined.

(** X11: when the JSON file exists but holds nothing, or white space
    only, construction raises the decoder's error: only a missing file is
    read as the empty mapping. *)
Theorem init_raises_on_blank_json_file
    (csv_file json_file text : string) (rows : list (list string))
    (w : world) :
  fst (CSVProcessor.read_csv {| filename := csv_file |} w) = Ok rows ->
  files w !! json_file = Some text ->
  Forall MoreNotions.is_json_whitespace (chars_of text) ->
  fst (ContactManager.init csv_file json_file w)
  = Raise (JSONDecodeError "Expecting value").
Proof.
  intros Hcsv Hf Hblank. unfold ContactManager.init.
  destruct (CSVProcessor.read_csv {| filename := csv_file |} w)
    as [r w1] eqn:E.
  assert (Hw1 : files w1 = files w).
  { unfold CSVProcessor.read_csv in E.
    destruct (files w !! filename {| filename := csv_file |});
      injection E as _ <-; reflexivity. }
  cbn [fst] in Hcsv. subst r.
  unfold JSONProcessor.read_json. cbn [filename].
  rewrite Hw1, Hf, PersistMore.loads_blank by assumption. reflexivity.
Qed.

Lemma init_raises_on_blank_json_file_witness :
  fst (ContactManager.init "contacts.csv" "metadata.json"
         {| files := {[ "metadata.json"%string := EmptyString ]};
            opened := [] |})
  = Raise (JSONDecodeError "Expecting value").
Proof.
  apply (init_raises_on_blank_json_file
           "contacts.csv" "metadata.json" EmptyString []
           {| files := {[ "metadata.json"%string := EmptyString ]};
              opened := [] |}).
  - reflexivity.
  - reflexivity.
  - constructor.
Defined.

Module AsciiMore.
Import Json MoreNotions JsonFacts.

Lemma escape_char_plain c : forallb plain_ascii (escape_char c) = true.
Proof. destruct c as [[] [] [] [] [] [] [] []]; reflexivity. Qed.

Lemma encode_string_plain s : forallb plain_ascii (encode_string s) = true.
Proof.
  unfold encode_string. cbn [forallb]. rewrite forallb_app.
  change (plain_ascii quote) with true. cbn [forallb andb].
  rewrite andb_true_r.
  induction s as [|c s IH]; [reflexivity|].
  cbn [flat_map]. now rewrite forallb_app, escape_char_plain, IH.
Qed.

Lemma uint_chars_plain u : forallb plain_ascii (uint_chars u) = true.
Proof.
  induction u; cbn [uint_chars forallb]; try rewrite IHu; reflexivity.
Qed.

Lemma encode_int_plain z : forallb plain_ascii (encode_int z) = true.
Proof.
  unfold encode_int. destruct (Z.to_int z); cbn [forallb];
    rewrite uint_chars_plain; reflexivity.
Qed.

Lemma newline_indent_plain level :
  forallb plain_ascii (newline_indent level) = true.
Proof.
  unfold newline_indent. cbn [forallb].
  change (plain_ascii LF) with true. cbn [andb].
  induction (4 * level) as [|n IH]; [reflexivity|].
  cbn [repeat forallb]. now rewrite IH.
Qed.

Lemma item_separator_plain level :
  forallb plain_ascii (item_separator level) = true.
Proof.
  unfold item_separator. cbn [forallb]. now rewrite newline_indent_plain.
Qed.

Lemma andthen_plain a b :
  forallb plain_ascii (fst a) = true ->
  forallb plain_ascii (fst b) = true ->
  forallb plain_ascii (fst (andthen a b)) = true.
Proof.
  destruct a as [t [e|]], b as [t' e']; cbn [andthen fst]; intros Ha Hb;
    [exact Ha|]. now rewrite forallb_app, Ha, Hb.
Qed.

Lemma closing_plain level c :
  plain_ascii c = true ->
  forallb plain_ascii (newline_indent level ++ [c]) = true.
Proof.
  intros Hc. rewrite forallb_app, newline_indent_plain.
  cbn [forallb]. now rewrite Hc.
Qed.

Lemma iterencode_items_plain level l :
  Forall plain_text l ->
  forall buf,
    forallb plain_ascii buf = true ->
    forallb plain_ascii (fst (iterencode_items level buf l)) = true.
Proof.
  induction 1 as [|x l Hx _ IH]; intros buf Hbuf.
  - now apply closing_plain.
  - rewrite iterencode_items_cons. apply andthen_plain.
    + pose proof (Hx (S level)) as Hp.
      destruct x;
        try (apply andthen_plain; [exact Hbuf|exact Hp]);
        (destruct (iterencode (S level) _) as [t [e|]]; cbn [fst] in *;
         [reflexivity|now rewrite forallb_app, Hbuf, Hp]).
    + apply IH. apply item_separator_plain.
Qed.

Lemma iterencode_pairs_plain level l :
  Forall (fun kv => plain_text (snd kv)) l ->
  forall first,
    forallb plain_ascii (fst (iterencode_pairs level first l)) = true.
Proof.
  induction 1 as [|[k x] l Hx _ IH]; intros first.
  - now apply closing_plain.
  - rewrite iterencode_pairs_cons. apply andthen_plain.
    + cbn [fst]. rewrite !forallb_app, encode_string_plain.
      destruct first; [reflexivity|]. now rewrite item_separator_plain.
    + apply andthen_plain; [apply Hx|apply IH].
Qed.

(** What [json.dump] writes, in full or until it raises, is plain. *)
Lemma iterencode_plain v : plain_text v.
Proof.
  induction v as [ |b|z|s|items IH|pairs IH] using json_ind'; intros level.
  - reflexivity.
  - destruct b; reflexivity.
  - cbn [iterencode]. unfold int_str.
    destruct (max_str_digits <? int_digits z); [reflexivity|].
    apply encode_int_plain.
  - apply encode_string_plain.
  - destruct items as [|x items]; [reflexivity|].
    rewrite iterencode_array. apply iterencode_items_plain; [exact IH|].
    cbn [forallb]. now rewrite newline_indent_plain.
  - destruct pairs as [|kv pairs]; [reflexivity|].
    rewrite iterencode_object. apply andthen_plain.
    + cbn [fst forallb]. now rewrite newline_indent_plain.
    + now apply iterencode_pairs_plain.
Qed.

Lemma dump_plain v : forallb plain_ascii (fst (dump v)) = true.
Proof.
  unfold dump. destruct (nesting_limit <? depth v); apply iterencode_plain.
Qed.

End AsciiMore.

(** X12: whatever value [write_json] is given, the text it writes holds
    printable ASCII characters and line feeds only: every other character
    of a key or a string is written as an escape. *)
Theorem write_json_writes_plain_ascii
    (self : FileProcessor) (data : Json.json) (w : world) :
  exists text,
    files (snd (JSONProcessor.write_json self data w)) !! filename self
    = Some text
    /\ forallb MoreNotions.plain_ascii (chars_of text) = true.
Proof.
  eexists. split.
  - rewrite StoreFacts.write_json_eq. unfold write_text. cbn [snd files].
    apply lookup_insert_eq.
  - rewrite StoreFacts.chars_of_str. apply AsciiMore.dump_plain.
Qed.

Module FrameMore.
Import ContactManager.

Lemma run_ops_frame ops :
  forall self w f,
    f <> filename (csv_processor self) ->
    f <> filename (json_processor self) ->
    files (snd (run_ops ops self w)) !! f = files w !! f.
Proof.
  induction ops as [|o ops IH]; intros self w f Hc Hj; [reflexivity|].
  cbn [run_ops].
  pose proof (PersistMore.run_op_processors o self w) as [Ec Ej].
  pose proof (PersistMore.run_op_frame o self w f Hc Hj) as Hf.
  destruct (run_op o self w) as [[r self'] w']. cbn [fst snd] in *.
  rewrite IH; [exact Hf|now rewrite Ec|now rewrite Ej].
Qed.

Lemma read_csv_world self w :
  snd (CSVProcessor.read_csv self w) = record_open (filename self) ModeRead w.
Proof.
  unfold CSVProcessor.read_csv. destruct (files w !! filename self);
    reflexivity.
Qed.

Lemma read_json_world self w :
  snd (JSONProcessor.read_json self w)
  = record_open (filename self) ModeRead w.
Proof.
  unfold JSONProcessor.read_json. destruct (files w !! filename self);
    reflexivity.
Qed.

End FrameMore.

(** X14: no run of calls on a manager changes, creates or removes a file
    other than the two the manager was constructed with. *)
Theorem calls_touch_only_the_two_files
    (ops : list ContactManager.op) (self : ContactManager.t) (w : world)
    (f : string) :
  f <> filename (ContactManager.csv_processor self) ->
  f <> filename (ContactManager.json_processor self) ->
  files (snd (ContactManager.run_ops ops self w)) !! f = files w !! f.
Proof. apply FrameMore.run_ops_frame. Qed.

Lemma calls_touch_only_the_two_files_witness :
  files (snd (ContactManager.run_ops
                (MoreNotions.save_all "task_status" (Json.JString "running"))
                Samples.fresh_manager Samples.after_init))
    !! "notes.txt"%string
  = files Samples.after_init !! "notes.txt"%string.
Proof.
  apply (calls_touch_only_the_two_files
           (MoreNotions.save_all "task_status" (Json.JString "running"))
           Samples.fresh_manager Samples.after_init "notes.txt");
    discriminate.
Defined.

(** X15: construction writes nothing.  It opens the CSV file for
    reading and then the JSON file for reading; when reading the CSV file
    raises, construction raises the same error and the JSON file is never
    opened. *)
Theorem init_only_reads (csv_file json_file : string) (w : world) :
  files (snd (ContactManager.init csv_file json_file w)) = files w
  /\ match fst (CSVProcessor.read_csv {| filename := csv_file |} w) with
     | Ok _ =>
         opened (snd (ContactManager.init csv_file json_file w))
         = opened w ++ [(csv_file, ModeRead); (json_file, ModeRead)]
     | Raise e =>
         fst (ContactManager.init csv_file json_file w) = Raise e
         /\ opened (snd (ContactManager.init csv_file json_file w))
            = opened w ++ [(csv_file, ModeRead)]
     end.
Proof.
  unfold ContactManager.init.
  pose proof (FrameMore.read_csv_world {| filename := csv_file |} w) as Hw1.
  destruct (CSVProcessor.read_csv {| filename := csv_file |} w)
    as [[rows|e] w1]; cbn [fst snd filename] in *; subst w1.
  - pose proof (FrameMore.read_json_world {| filename := json_file |}
                  (record_open csv_file ModeRead w)) as Hw2.
    destruct (JSONProcessor.read_json {| filename := json_file |}
                (record_open csv_file ModeRead w))
      as [[data|e] w2]; cbn [fst snd filename] in *; subst w2;
      cbn [record_open files opened]; rewrite <- app_assoc;
      split; reflexivity.
  - cbn [record_open files opened]. auto.
Qed.

(** X16: [save_contacts] writes one line per contact, so saving after a
    successful [add_contact] writes the text that saving before it would
    have written, followed by the line of the new contact. *)
Theorem save_after_add_appends_one_line
    (self : ContactManager.t) (name email phone : string) (w : world) :
  MoreNotions.accepted (name, email, phone) ->
  files (snd (ContactManager.run_ops [ContactManager.SaveContacts] self w))
    !! filename (ContactManager.csv_processor self)
  = Some (string_of_list_ascii
            (Csv.writerows
               (map (map chars_of) (ContactManager.contacts self))))
  /\ files (snd (ContactManager.run_ops
                   [ContactManager.AddContact name email phone;
                    ContactManager.SaveContacts] self w))
       !! filename (ContactManager.csv_processor self)
     = Some (string_of_list_ascii
               (Csv.writerows
                  (map (map chars_of) (ContactManager.contacts self))
                ++ Csv.writerow [chars_of name; chars_of email;
                                 chars_of phone])).
Proof.
  intros [He Hp]. cbn [fst snd] in He, Hp.
  cbn [ContactManager.run_ops ContactManager.run_op].
  rewrite ManagerFacts.add_contact_cases, Hp.
  destruct (MyLibrary.extract_emails email) as [|e es]; [congruence|].
  unfold ContactManager.save_contacts, CSVProcessor.write_csv, write_text.
  cbn [ContactManager.with_contacts ContactManager.contacts
       ContactManager.csv_processor fst snd files].
  rewrite !lookup_insert_eq. split; [reflexivity|].
  do 2 f_equal. rewrite map_app. unfold Csv.writerows.
  rewrite flat_map_app. cbn [map flat_map]. now rewrite app_nil_r.
Qed.

Lemma save_after_add_appends_one_line_witness :
  files (snd (ContactManager.run_ops [ContactManager.SaveContacts]
                Samples.fresh_manager Samples.after_init))
    !! filename (ContactManager.csv_processor Samples.fresh_manager)
  = Some (string_of_list_ascii
            (Csv.writerows
               (map (map chars_of)
                  (ContactManager.contacts Samples.fresh_manager))))
  /\ files (snd (ContactManager.run_ops
                   [ContactManager.AddContact
                      "Mol7" "Mol7@kent.ac.uk" "(123) 456-7890";
                    ContactManager.SaveContacts]
                   Samples.fresh_manager Samples.after_init))
       !! filename (ContactManager.csv_processor Samples.fresh_manager)
     = Some (string_of_list_ascii
               (Csv.writerows
                  (map (map chars_of)
                     (ContactManager.contacts Samples.fresh_manager))
                ++ Csv.writerow [chars_of "Mol7"; chars_of "Mol7@kent.ac.uk";
                                 chars_of "(123) 456-7890"])).
Proof.
  apply (save_after_add_appends_one_line Samples.fresh_manager
           "Mol7" "Mol7@kent.ac.uk" "(123) 456-7890" Samples.after_init).
  split; [discriminate|reflexivity].
Defined.

Module ReaderMore.
Import Csv CsvReading CsvFacts MoreNotions.

#[local] Opaque field_limit.

(** One character, read in any state but the one that waits for the
    end of the line, or a line break in any state. *)
Lemma step_ok p c :
  length (field p) < field_limit ->
  (state p = EAT_CRNL -> is_newline c = true) ->
  exists p',
    parse_process_char p (Some c) = Ok p'
    /\ length (field p') <= S (length (field p))
    /\ (is_newline c = false -> state p' <> EAT_CRNL).
Proof.
  intros Hlen Heat. destruct p as [st fs fd]. cbn [state field] in *.
  assert (Hadd : forall s0 fs0,
             parse_add_char {| state := s0; fields := fs0; field := fd |} c
             = Ok {| state := s0; fields := fs0; field := fd ++ [c] |}).
  { intros s0 fs0. apply add_char_ok. exact Hlen. }
  destruct st; unfold parse_process_char, start_field, set_state,
    parse_save_field; cbn [state fields field];
    destruct (is_newline c) eqn:En;
    destruct (Ascii.eqb c quote) eqn:Eq;
    destruct (Ascii.eqb c comma) eqn:Ec;
    rewrite ?Hadd; cbn [bind];
    try (specialize (Heat eq_refl); discriminate);
    eexists; (split; [reflexivity|]);
    cbn [state field length]; rewrite ?List.length_app; cbn [length];
    (split; [lia|intros; discriminate]).
Qed.

Lemma feed_newlines e :
  forall p,
    Forall (fun c => is_newline c = true) e ->
    length (field p) + length e <= field_limit ->
    exists p',
      feed p e = Ok p' /\ length (field p') <= length (field p) + length e.
Proof.
  induction e as [|c e IH]; intros p He Hlen.
  - exists p. split; [reflexivity|lia].
  - inversion He as [|? ? Hc He']; subst. cbn [length] in Hlen.
    destruct (step_ok p c) as (p1 & E1 & L1 & _); [lia|auto|].
    destruct (IH p1 He') as (p2 & E2 & L2); [lia|].
    exists p2. cbn [feed]. rewrite E1. cbn [bind length].
    split; [exact E2|lia].
Qed.

Lemma feed_plain body :
  forall p,
    Forall plain body ->
    state p <> EAT_CRNL ->
    length (field p) + length body <= field_limit ->
    exists p',
      feed p body = Ok p' /\ state p' <> EAT_CRNL
      /\ length (field p') <= length (field p) + length body.
Proof.
  induction body as [|c body IH]; intros p Hb Hs Hlen.
  - exists p. repeat split; [exact Hs|lia].
  - inversion Hb as [|? ? Hc Hb']; subst. cbn [length] in Hlen.
    destruct (step_ok p c) as (p1 & E1 & L1 & S1); [lia|congruence|].
    destruct (IH p1 Hb' (S1 Hc)) as (p2 & E2 & S2 & L2); [lia|].
    exists p2. cbn [feed]. rewrite E1. cbn [bind length].
    repeat split; [exact E2|exact S2|lia].
Qed.

Lemma feed_line l p :
  line_shape l ->
  state p <> EAT_CRNL ->
  length (field p) + length l <= field_limit ->
  exists p',
    feed p l = Ok p' /\ length (field p') <= length (field p) + length l.
Proof.
  intros (body & e & -> & Hb & He) Hs Hlen.
  rewrite List.length_app in Hlen.
  destruct (feed_plain body p Hb Hs) as (p1 & E1 & _ & L1); [lia|].
  destruct (feed_newlines e p1 He) as (p2 & E2 & L2); [lia|].
  exists p2. rewrite feed_app, E1. cbn [bind].
  split; [exact E2|]. rewrite List.length_app. lia.
Qed.

Lemma end_of_line p :
  exists p',
    parse_process_char p None = Ok p'
    /\ state p' <> EAT_CRNL
    /\ length (field p') <= length (field p).
Proof.
  destruct p as [[] fs fd];
    (eexists; split; [reflexivity|]; split; [discriminate|]);
    cbn [field set_state parse_save_field length]; lia.
Qed.

Lemma snoc_plain cur c :
  Forall plain cur -> is_newline c = false -> Forall plain (cur ++ [c]).
Proof.
  intros Hcur Hc. apply Forall_app. split; [exact Hcur|].
  constructor; [exact Hc|constructor].
Qed.

Lemma line_shape_end cur e :
  Forall plain cur -> Forall (fun c => is_newline c = true) e ->
  line_shape (cur ++ e).
Proof. intros Hcur He. exists cur, e. auto. Qed.

Lemma lines_from_shape n :
  forall s cur,
    length s <= n ->
    Forall plain cur ->
    Forall line_shape (lines_from cur s)
    /\ length (concat (lines_from cur s)) = length cur + length s.
Proof.
  induction n as [|n IH]; intros s cur Hn Hcur.
  - destruct s; [|cbn [length] in Hn; lia].
    cbn [lines_from]. destruct cur as [|a cur'].
    + split; [constructor|reflexivity].
    + split.
      * constructor; [|constructor].
        rewrite <- (app_nil_r (a :: cur')). apply line_shape_end; auto.
      * cbn [concat]. rewrite app_nil_r. cbn [length]. lia.
  - destruct s as [|c r].
    + cbn [lines_from]. destruct cur as [|a cur'].
      * split; [constructor|reflexivity].
      * split.
        -- constructor; [|constructor].
           rewrite <- (app_nil_r (a :: cur')). apply line_shape_end; auto.
        -- cbn [concat]. rewrite app_nil_r. cbn [length]. lia.
    + cbn [length] in Hn. cbn [lines_from].
      destruct (Ascii.eqb_spec c LF) as [->|Hlf].
      { destruct (IH r [] ltac:(lia) ltac:(constructor)) as [H1 H2].
        split.
        - constructor; [|exact H1]. apply line_shape_end; auto.
        - cbn [concat]. rewrite !List.length_app, H2. cbn [length]. lia. }
      destruct (Ascii.eqb_spec c CR) as [->|Hcr].
      { destruct r as [|c2 r'].
        - cbn [lines_from]. split.
          + constructor; [|constructor]. apply line_shape_end; auto.
          + cbn [concat]. rewrite app_nil_r, !List.length_app.
            cbn [length]. lia.
        - cbn [length] in Hn.
          destruct (Ascii.eqb_spec c2 LF) as [->|Hlf2].
          + destruct (IH r' [] ltac:(lia) ltac:(constructor)) as [H1 H2].
            split.
            * constructor; [|exact H1]. apply line_shape_end; auto.
            * cbn [concat]. rewrite !List.length_app, H2.
              cbn [length]. lia.
          + destruct (IH (c2 :: r') [] ltac:(cbn [length]; lia)
                        ltac:(constructor)) as [H1 H2].
            split.
            * constructor; [|exact H1]. apply line_shape_end; auto.
            * cbn [concat]. rewrite !List.length_app, H2.
              cbn [length]. lia. }
      assert (Hc : is_newline c = false).
      { unfold is_newline. apply orb_false_iff.
        split; apply Ascii.eqb_neq; assumption. }
      destruct (IH r (cur ++ [c]) ltac:(lia) (snoc_plain cur c Hcur Hc))
        as [H1 H2].
      split; [exact H1|]. rewrite H2, List.length_app. cbn [length]. lia.
Qed.

Lemma reader_loop_ok file :
  forall p,
    Forall line_shape file ->
    state p <> EAT_CRNL ->
    length (field p) + length (concat file) <= field_limit ->
    exists rows, reader_loop p file = Ok rows.
Proof.
  induction file as [|l file IH]; intros p Hsh Hs Hlen.
  - cbn [reader_loop]. destruct (_ || _); eexists; reflexivity.
  - inversion Hsh as [|? ? Hl Hrest]; subst.
    cbn [concat] in Hlen. rewrite List.length_app in Hlen.
    destruct (feed_line l p Hl Hs) as (p1 & E1 & L1); [lia|].
    destruct (end_of_line p1) as (p2 & E2 & S2 & L2).
    cbn [reader_loop]. rewrite E1. cbn [bind]. rewrite E2. cbn [bind].
    destruct (state p2) eqn:Est.
    1: { destruct (IH parse_reset Hrest) as (rows & ->);
           [discriminate|cbn [parse_reset field length]; lia|].
         eexists. reflexivity. }
    all: apply IH; [exact Hrest|congruence|lia].
Qed.

(** The reader raises on no text that is at most as long as one field
    may be. *)
Lemma reader_short s :
  length s <= field_limit -> exists rows, reader (lines s) = Ok rows.
Proof.
  intros Hlen. unfold reader, lines.
  destruct (lines_from_shape (length s) s [] (le_n _) ltac:(constructor))
    as [H1 H2].
  apply reader_loop_ok; [exact H1|discriminate|].
  rewrite H2. cbn [parse_reset field length]. lia.
Qed.

Lemma row_end_LF p0 cur p s :
  feed p0 cur = Ok p -> done_state (state p) ->
  reader_loop p0 (lines_from cur (LF :: s))
  = (rows <- reader_loop parse_reset (lines_from [] s) ;;
     Ok ((fields p ++ [field p]) :: rows)).
Proof.
  intros Hf Hs. rewrite lines_from_LF. cbn [reader_loop].
  rewrite feed_app, Hf. cbn [bind]. destruct p as [st fs fd].
  cbn [state fields field] in *.
  destruct Hs as [Hs|[Hs|Hs]]; subst st; reflexivity.
Qed.

Lemma reader_record_LF row s :
  Forall (fun f => length f <= field_limit) row ->
  reader_loop parse_reset (lines_from [] ((record_text row ++ [LF]) ++ s))
  = (rows <- reader_loop parse_reset (lines_from [] s) ;; Ok (row :: rows)).
Proof.
  intros Hl. unfold record_text. rewrite <- app_assoc.
  destruct row as [|f row]; [reflexivity|].
  destruct (join_fields (f :: row)) as [|c rec] eqn:Ej.
  - apply join_fields_nil in Ej as [Ej|Ej]; [discriminate|].
    injection Ej as -> ->. reflexivity.
  - rewrite <- Ej. cbn [length Nat.ltb Nat.leb andb].
    replace (length (join_fields (f :: row)) =? 0) with false
      by (rewrite Ej; reflexivity).
    destruct (consumes_row (f :: row) parse_reset)
      as (p' & Hc & Hfs & Hs); [discriminate|split; auto|assumption|].
    destruct (Hc parse_reset [] ([LF] ++ s) eq_refl)
      as (p0' & cur' & Hf' & ->).
    destruct Hs as [Hs|[_ E]].
    + cbn [app]. rewrite (row_end_LF p0' cur' p') by assumption.
      now rewrite Hfs.
    + rewrite E in Ej. discriminate.
Qed.

Lemma reader_unix_text rows :
  Forall (Forall (fun f => length f <= field_limit)) rows ->
  reader (lines (unix_text rows)) = Ok rows.
Proof.
  unfold reader, lines, unix_text.
  induction rows as [|row rows IH]; intros Hl; [reflexivity|].
  inversion Hl; subst. cbn [flat_map].
  rewrite reader_record_LF by assumption. now rewrite IH.
Qed.

End ReaderMore.

(** X17: [read_csv] raises on no file of at most 131072 characters,
    whatever the text: unbalanced quotes, stray line breaks and lines of
    different lengths are all read as rows. *)
Theorem read_csv_never_raises_on_short_file
    (self : FileProcessor) (w : world) :
  (forall text,
      files w !! filename self = Some text ->
      String.length text <= Csv.field_limit) ->
  exists rows, fst (CSVProcessor.read_csv self w) = Ok rows.
Proof.
  intros Hshort. unfold CSVProcessor.read_csv.
  destruct (files w !! filename self) as [text|]; [|eexists; reflexivity].
  destruct (ReaderMore.reader_short (chars_of text)) as (rows & ->).
  - rewrite StoreFacts.length_chars_of. now apply Hshort.
  - eexists. reflexivity.
Qed.

Lemma read_csv_never_raises_on_short_file_witness :
  exists rows,
    fst (CSVProcessor.read_csv {| filename := "contacts.csv" |}
           {| files := {[ "contacts.csv"%string := "a,b"%string ]};
              opened := [] |})
    = Ok rows.
Proof.
  apply (read_csv_never_raises_on_short_file
           {| filename := "contacts.csv" |}
           {| files := {[ "contacts.csv"%string := "a,b"%string ]};
              opened := [] |}).
  intros text H. cbn [filename files] in H.
  rewrite lookup_singleton_eq in H. injection H as <-.
  unfold Csv.field_limit. cbn [String.length]. lia.
Defined.

(** X18: [read_csv] reads a file whose lines end in a line feed alone
    (not the writer's CR LF) as the same rows: for rows whose fields are
    within the reader's limit, the records laid out as the writer lays
    them, one per line feed ended line, read back as the rows. *)
Theorem read_csv_accepts_line_feed_endings
    (self : FileProcessor) (rows : list (list string)) (w : world) :
  files w !! filename self
  = Some (string_of_list_ascii
            (MoreNotions.unix_text (map (map chars_of) rows))) ->
  Forall (Forall (fun f => String.length f <= Csv.field_limit)) rows ->
  fst (CSVProcessor.read_csv self w) = Ok rows.
Proof.
  intros Hf Hl. unfold CSVProcessor.read_csv. rewrite Hf. cbn [fst].
  rewrite StoreFacts.chars_of_str, ReaderMore.reader_unix_text.
  - cbn [bind]. f_equal. rewrite map_map.
    rewrite <- (map_id rows) at 2. apply map_ext. intros row.
    rewrite map_map. rewrite <- (map_id row) at 2. apply map_ext.
    apply StoreFacts.str_chars_of.
  - apply List.Forall_map. eapply List.Forall_impl; [|exact Hl].
    intros row Hrow. apply List.Forall_map.
    eapply List.Forall_impl; [|exact Hrow].
    intros f Hf'. cbv beta. now rewrite StoreFacts.length_chars_of.
Qed.

Lemma read_csv_accepts_line_feed_endings_witness :
  fst (CSVProcessor.read_csv {| filename := "contacts.csv" |}
         {| files :=
              {[ "contacts.csv"%string :=
                   string_of_list_ascii
                     (MoreNotions.unix_text
                        (map (map chars_of)
                           [["Mol7"; "Mol7@kent.ac.uk"; "(123) 456-7890"];
                            ["a,b"; "c"]]%string)) ]};
            opened := [] |})
  = Ok [["Mol7"; "Mol7@kent.ac.uk"; "(123) 456-7890"]; ["a,b"; "c"]]%string.
Proof.
  apply (read_csv_accepts_line_feed_endings
           {| filename := "contacts.csv" |}
           [["Mol7"; "Mol7@kent.ac.uk"; "(123) 456-7890"]; ["a,b"; "c"]]%string).
  - cbn [filename files]. apply lookup_singleton_eq.
  - repeat (apply List.Forall_cons || apply List.Forall_nil);
      unfold Csv.field_limit; cbn [String.length]; lia.
Defined.

Module FileMore.
Import FileProcessorMethods MoreNotions.

Lemma chars_of_app s t : chars_of (s ++ t) = chars_of s ++ chars_of t.
Proof. induction s as [|c s IH]; simpl; [reflexivity|]. now f_equal. Qed.

Lemma chars_of_join content :
  chars_of (fold_right String.append EmptyString content)
  = concat (map chars_of content).
Proof.
  induction content as [|s content IH]; [reflexivity|].
  cbn [fold_right map concat]. now rewrite chars_of_app, IH.
Qed.

Lemma translate_no_cr s :
  Forall (fun c => Ascii.eqb c CR = false) s -> translate_newlines s = s.
Proof.
  induction 1 as [|c s Hc _ IH]; [reflexivity|].
  cbn [translate_newlines]. rewrite Hc. now f_equal.
Qed.

Lemma translate_has_no_cr n :
  forall s,
    length s <= n ->
    Forall (fun c => Ascii.eqb c CR = false) (translate_newlines s).
Proof.
  induction n as [|n IH]; intros s Hn.
  - destruct s; [constructor|cbn [length] in Hn; lia].
  - destruct s as [|c r]; [constructor|].
    cbn [length] in Hn. cbn [translate_newlines].
    destruct (Ascii.eqb c CR) eqn:Ec.
    + destruct r as [|c2 r']; [repeat constructor|].
      cbn [length] in Hn.
      destruct (Ascii.eqb c2 LF); (constructor; [reflexivity|]);
        apply IH; cbn [length]; lia.
    + constructor; [exact Ec|]. apply IH. lia.
Qed.

Lemma readlines_from_body body :
  forall cur rest,
    Forall (fun c => Ascii.eqb c LF = false) body ->
    readlines_from cur (body ++ LF :: rest)
    = (cur ++ body ++ [LF]) :: readlines_from [] rest.
Proof.
  induction body as [|c body IH]; intros cur rest Hb.
  - reflexivity.
  - inversion Hb as [|? ? Hc Hb']; subst.
    cbn [app readlines_from]. rewrite Hc, IH by assumption.
    now rewrite <- app_assoc.
Qed.

Lemma readlines_from_concat s :
  forall cur, concat (readlines_from cur s) = cur ++ s.
Proof.
  induction s as [|c s IH]; intros cur; cbn [readlines_from].
  - destruct cur; cbn [concat]; now rewrite ?app_nil_r.
  - destruct (Ascii.eqb_spec c LF) as [->|Hc].
    + cbn [concat]. rewrite IH. now rewrite <- app_assoc.
    + rewrite IH. now rewrite <- app_assoc.
Qed.

Lemma terminated_lines content :
  Forall terminated_line content ->
  Forall (fun c => Ascii.eqb c CR = false) (concat (map chars_of content))
  /\ readlines (concat (map chars_of content)) = map chars_of content.
Proof.
  unfold readlines.
  induction 1 as [|s content (body & Es & Hb) _ [IH1 IH2]];
    [split; [constructor|reflexivity]|].
  cbn [map concat]. rewrite Es. split.
  - apply Forall_app. split; [apply Forall_app; split|exact IH1].
    + eapply List.Forall_impl; [|exact Hb]. intros c Hc.
      now apply CsvFacts.plain_inv in Hc.
    + repeat constructor.
  - rewrite <- app_assoc. cbn [app].
    rewrite readlines_from_body.
    + cbn [app]. now rewrite IH2.
    + eapply List.Forall_impl; [|exact Hb]. intros c Hc.
      now apply CsvFacts.plain_inv in Hc.
Qed.

Lemma map_str_chars_of (l : list string) :
  map string_of_list_ascii (map chars_of l) = l.
Proof.
  rewrite map_map. rewrite <- (map_id l) at 2. apply map_ext.
  apply StoreFacts.str_chars_of.
Qed.

Lemma map_chars_of_str (l : list (list ascii)) :
  map chars_of (map string_of_list_ascii l) = l.
Proof.
  rewrite map_map. rewrite <- (map_id l) at 2. apply map_ext.
  apply StoreFacts.chars_of_str.
Qed.

End FileMore.

(** X19: [write_file] followed by [read_file] on the same file gives
    back the lines that were written, when every one of them is a line of
    text ended by one line feed. *)
Theorem read_file_after_write_file
    (self : FileProcessor) (content : list string) (w : world) :
  Forall MoreNotions.terminated_line content ->
  fst (FileProcessorMethods.read_file self
         (snd (FileProcessorMethods.write_file self content w)))
  = content.
Proof.
  intros Hc. unfold FileProcessorMethods.read_file,
    FileProcessorMethods.write_file, write_text.
  cbn [snd files]. rewrite lookup_insert_eq. cbn [fst].
  destruct (FileMore.terminated_lines content Hc) as [Hcr Hlines].
  rewrite FileMore.chars_of_join, FileMore.translate_no_cr by exact Hcr.
  rewrite Hlines. apply FileMore.map_str_chars_of.
Qed.

Lemma read_file_after_write_file_witness :
  fst (FileProcessorMethods.read_file {| filename := "notes.txt" |}
         (snd (FileProcessorMethods.write_file {| filename := "notes.txt" |}
                 [String "a" (String LF EmptyString);
                  String LF EmptyString]
                 Samples.no_files)))
  = [String "a" (String LF EmptyString); String LF EmptyString].
Proof.
  apply (read_file_after_write_file {| filename := "notes.txt" |}
           [String "a" (String LF EmptyString); String LF EmptyString]
           Samples.no_files).
  constructor; [|constructor; [|constructor]].
  - exists ["a"%char]. split; [reflexivity|repeat constructor].
  - exists []. split; [reflexivity|constructor].
Defined.

(** X20: writing back with [write_file] what [read_file] returned
    leaves a file without carriage returns (reading turns CR LF and a lone
    CR into LF), and leaves the text as it was when it had none. *)
Theorem write_file_after_read_file
    (self : FileProcessor) (text : string) (w : world) :
  files w !! filename self = Some text ->
  exists text',
    files (snd (FileProcessorMethods.write_file self
                  (fst (FileProcessorMethods.read_file self w))
                  (snd (FileProcessorMethods.read_file self w))))
      !! filename self
    = Some text'
    /\ Forall (fun c => Ascii.eqb c CR = false) (chars_of text')
    /\ (Forall (fun c => Ascii.eqb c CR = false) (chars_of text) ->
        text' = text).
Proof.
  intros Hf. unfold FileProcessorMethods.read_file,
    FileProcessorMethods.write_file, write_text.
  rewrite Hf. cbn [fst snd files]. rewrite lookup_insert_eq.
  eexists. split; [reflexivity|].
  rewrite FileMore.chars_of_join, FileMore.map_chars_of_str.
  unfold FileProcessorMethods.readlines.
  rewrite FileMore.readlines_from_concat. cbn [app]. split.
  - eapply FileMore.translate_has_no_cr. apply le_n.
  - intros Hcr. rewrite <- (StoreFacts.str_chars_of text) at 2.
    rewrite <- (StoreFacts.str_chars_of (fold_right _ _ _)).
    f_equal. rewrite FileMore.chars_of_join, FileMore.map_chars_of_str.
    rewrite FileMore.readlines_from_concat. cbn [app].
    now apply FileMore.translate_no_cr.
Qed.

Lemma write_file_after_read_file_witness :
  exists text',
    files (snd (FileProcessorMethods.write_file {| filename := "notes.txt" |}
                  (fst (FileProcessorMethods.read_file
                          {| filename := "notes.txt" |}
                          {| files := {[ "notes.txt"%string :=
                                           String "a" (String CR
                                             (String LF "b")) ]};
                             opened := [] |}))
                  (snd (FileProcessorMethods.read_file
                          {| filename := "notes.txt" |}
                          {| files := {[ "notes.txt"%string :=
                                           String "a" (String CR
                                             (String LF "b")) ]};
                             opened := [] |}))))
      !! filename {| filename := "notes.txt" |}
    = Some text'
    /\ Forall (fun c => Ascii.eqb c CR = false) (chars_of text')
    /\ (Forall (fun c => Ascii.eqb c CR = false)
          (chars_of (String "a" (String CR (String LF "b")))) ->
        text' = String "a" (String CR (String LF "b"))).
Proof.
  apply (write_file_after_read_file {| filename := "notes.txt" |}
           (String "a" (String CR (String LF "b")))
           {| files := {[ "notes.txt"%string :=
                            String "a" (String CR (String LF "b")) ]};
              opened := [] |}).
  apply lookup_singleton_eq.
Defined.
